(** * book-walker-helper: the collection service

    A shallow embedding of [src/services/bookCollectionServices.ts] and a
    verification of its synchronisation run ([reloadCollection]), of the
    merge it performs ([recordBookList]) and of the label toggle
    ([switchTopSeries]).

    Conventions of the embedding.
    - A JavaScript [number] that holds the result of [parseInt] is an
      integer or [NaN]; integers are kept exact (a double is exact below
      2^53, far above any page count or product id).
    - A string is a sequence of code units, one [ascii] each; the message
      literals are kept in their UTF-8 encoding.
    - [localStorage] holds JSON text; an entry is represented by the value
      that the text encodes.
    - A promise that settles is a [Result]: [Fulfilled] or [Rejected]; a
      promise that never settles is [Pending].
    - The remote site is a function from the requested address to the
      answer of [ky.get]; the requests a run consumes are logged in the
      world so that "was attempted" can be stated. *)

From Stdlib Require Import ZArith Ascii String List Permutation.
From stdpp Require Import base tactics option list strings pretty.

Local Open Scope Z_scope.
Local Open Scope string_scope.
Local Open Scope list_scope.

(** ** JavaScript values *)

Module Js.

(** The [number]s this file produces: [parseInt] yields an integer or NaN. *)
Inductive number := NaN | Num (z : Z).

(** [a === b] on numbers: NaN is not equal to itself. *)
Definition strict_eq (a b : number) : bool :=
  match a, b with
  | Num x, Num y => Z.eqb x y
  | _, _ => false
  end.

(** [a - 1] and template-literal conversion. *)
Definition pred (a : number) : number :=
  match a with NaN => NaN | Num z => Num (z - 1) end.

Definition toString (a : number) : string :=
  match a with NaN => "NaN" | Num z => pretty z end.

(** [ToLength]: NaN and negative values become 0. *)
Definition toLength (a : number) : nat :=
  match a with NaN => O | Num z => Z.to_nat z end.

Definition isWhiteSpace (c : ascii) : bool :=
  match nat_of_ascii c with
  | 9%nat | 10%nat | 11%nat | 12%nat | 13%nat | 32%nat => true
  | _ => false
  end.

Fixpoint skipWhiteSpace (s : string) : string :=
  match s with
  | String c s' => if isWhiteSpace c then skipWhiteSpace s' else s
  | EmptyString => s
  end.

Definition digitValue (c : ascii) : option Z :=
  let n := Z.of_nat (nat_of_ascii c) in
  if ((48 <=? n) && (n <=? 57))%Z then Some (n - 48)
  else if ((97 <=? n) && (n <=? 122))%Z then Some (n - 87)
  else if ((65 <=? n) && (n <=? 90))%Z then Some (n - 55)
  else None.

Fixpoint parseDigits (radix : Z) (s : string) (acc : option Z) : option Z :=
  match s with
  | String c s' =>
      match digitValue c with
      | Some d =>
          if (d <? radix)%Z
          then parseDigits radix s' (Some (default 0 acc * radix + d))
          else acc
      | None => acc
      end
  | EmptyString => acc
  end.

(** [parseInt(s)] without a radix: leading white space, a sign, an optional
    [0x] prefix, then the longest run of digits; NaN when there is none. *)
Definition parseInt (s : string) : number :=
  let s := skipWhiteSpace s in
  let '(sign, s) :=
    match s with
    | String "-" s' => (-1, s')
    | String "+" s' => (1, s')
    | _ => (1, s)
    end in
  let '(radix, s) :=
    match s with
    | String "0" (String "x" s') => (16, s')
    | String "0" (String "X" s') => (16, s')
    | _ => (10, s)
    end in
  match parseDigits radix s None with
  | Some n => Num (sign * n)
  | None => NaN
  end.

(** [s.substring(n)], [s.substring(0, n)], [s.split("/")[0]],
    [s.includes(t)] and [s.trim()]. *)
Definition substringFrom (n : nat) (s : string) : string :=
  String.substring n (String.length s - n) s.

Definition substringTo (n : nat) (s : string) : string :=
  String.substring 0 n s.

Fixpoint beforeSlash (s : string) : string :=
  match s with
  | String c s' => if Ascii.eqb c "/" then EmptyString else String c (beforeSlash s')
  | EmptyString => EmptyString
  end.

Definition includes (s t : string) : bool :=
  match String.index 0 t s with Some _ => true | None => false end.

Fixpoint trimEnd (s : string) : string :=
  match s with
  | String c s' =>
      match trimEnd s' with
      | EmptyString => if isWhiteSpace c then EmptyString else String c EmptyString
      | r => String c r
      end
  | EmptyString => EmptyString
  end.

Definition trim (s : string) : string := trimEnd (skipWhiteSpace s).

End Js.

(** ** The remote site, as the service sees it *)

(** A DOM element: the properties the service reads, and its element
    children in document order. [href] and [src] are absent on elements
    that are not links, respectively images. *)
Local Unset Elimination Schemes.
Inductive Element :=
  El (innerHTML : string) (href src : option string) (children : list Element).
Local Set Elimination Schemes.

Definition innerHTML (e : Element) : string := let 'El h _ _ _ := e in h.
Definition href (e : Element) : option string := let 'El _ h _ _ := e in h.
Definition src (e : Element) : option string := let 'El _ _ s _ := e in s.
Definition children (e : Element) : list Element := let 'El _ _ _ c := e in c.

(** One [.buy_info] row: its elements of class [buy_book] and [bookbor]. *)
Record BuyInfo := {
  buy_book : list Element;
  bookbor : list Element;
}.

(** What [domParser.parseFromString(html, "text/html")] gives, seen through
    the three queries of this file: the [buy_info] rows below
    [#order_book] (absent when there is no such element), the elements of
    class [bw_pagination], and [#breadcrumb_list]. *)
Record Document := {
  order_book : option (list BuyInfo);
  bw_pagination : list Element;
  breadcrumb_list : option Element;
}.

Inductive Url :=
  | AvailableBookList (page : Z)   (* /member/available_book_list?page=${page} *)
  | Product (id : Js.number).      (* /product/${id} *)

(** The answer of [ky.get]: it rejects, or gives a response with its
    [redirected] flag and its body. *)
Inductive KyAnswer :=
  | KyRejects
  | KyResponse (redirected : bool) (body : Document).

Inductive exn := TypeError | HTTPError.

(** ** State *)

Record Book := {
  id : Js.number;
  name : string;
  series : option string;
  favorite : bool;
  bookmark : bool;
}.

(** A row as [loadAvailableBookList] builds it: [{ name, id, series: null }],
    of which [recordBookList] reads [id] and [name]. *)
Record FetchedBook := {
  fetched_id : Js.number;
  fetched_name : string;
}.

Record Message := {
  msg : string;
  error : option bool;
}.

(** The reactive [state], the two [localStorage] entries, and the log of
    the requests answered so far. *)
Record World := {
  books : list Book;
  topSeries : list string;
  loading : bool;
  loadingMessage : option Message;
  storage_books : option (list Book);
  storage_topSeries : option (list string);
  requests : list Url;
}.

Definition set_books (f : list Book → list Book) (w : World) : World :=
  {| books := f (books w); topSeries := topSeries w; loading := loading w;
     loadingMessage := loadingMessage w; storage_books := storage_books w;
     storage_topSeries := storage_topSeries w; requests := requests w |}.

Definition set_topSeries (f : list string → list string) (w : World) : World :=
  {| books := books w; topSeries := f (topSeries w); loading := loading w;
     loadingMessage := loadingMessage w; storage_books := storage_books w;
     storage_topSeries := storage_topSeries w; requests := requests w |}.

Definition set_loading (b : bool) (w : World) : World :=
  {| books := books w; topSeries := topSeries w; loading := b;
     loadingMessage := loadingMessage w; storage_books := storage_books w;
     storage_topSeries := storage_topSeries w; requests := requests w |}.

Definition set_loadingMessage (m : option Message) (w : World) : World :=
  {| books := books w; topSeries := topSeries w; loading := loading w;
     loadingMessage := m; storage_books := storage_books w;
     storage_topSeries := storage_topSeries w; requests := requests w |}.

Definition set_storage_books (v : list Book) (w : World) : World :=
  {| books := books w; topSeries := topSeries w; loading := loading w;
     loadingMessage := loadingMessage w; storage_books := Some v;
     storage_topSeries := storage_topSeries w; requests := requests w |}.

Definition set_storage_topSeries (v : list string) (w : World) : World :=
  {| books := books w; topSeries := topSeries w; loading := loading w;
     loadingMessage := loadingMessage w; storage_books := storage_books w;
     storage_topSeries := Some v; requests := requests w |}.

Definition log_request (u : Url) (w : World) : World :=
  {| books := books w; topSeries := topSeries w; loading := loading w;
     loadingMessage := loadingMessage w; storage_books := storage_books w;
     storage_topSeries := storage_topSeries w; requests := requests w ++ [u] |}.

(** [reactive({ books: JSON.parse(localStorage.getItem("books") ?? "[]"), ... })] *)
Definition initialState (stored_books : option (list Book))
    (stored_topSeries : option (list string)) : World :=
  {| books := default [] stored_books;
     topSeries := default [] stored_topSeries;
     loading := false;
     loadingMessage := None;
     storage_books := stored_books;
     storage_topSeries := stored_topSeries;
     requests := [] |}.

(** ** Asynchronous computations over the world *)

Inductive Result (A : Type) :=
  | Fulfilled (a : A)
  | Rejected (e : exn)
  | Pending.
Arguments Fulfilled {A} a.
Arguments Rejected {A} e.
Arguments Pending {A}.

Definition M (A : Type) : Type := World → Result A * World.

#[global] Instance M_ret : MRet M := λ A a w, (Fulfilled a, w).

#[global] Instance M_bind : MBind M := λ A B f c w,
  match c w with
  | (Fulfilled a, w') => f a w'
  | (Rejected e, w') => (Rejected e, w')
  | (Pending, w') => (Pending, w')
  end.

Definition throw {A} (e : exn) : M A := λ w, (Rejected e, w).

Definition update (f : World → World) : M unit := λ w, (Fulfilled tt, f w).

Definition read {A} (f : World → A) : M A := λ w, (Fulfilled (f w), w).

(** A value that dereferencing may fail to give: [None] raises TypeError. *)
Definition deref {A} (o : option A) : M A :=
  match o with Some a => mret a | None => throw TypeError end.

(** The order in which outstanding operations complete is not decided by
    the program: a schedule gives, when [n] operations have completed,
    which of the outstanding ones completes next. *)
Definition schedule := nat → nat.

(** ** The bounded-concurrency mapper, [@/utilities/Parallel] *)

Section ParallelMap.
Context {Store T R : Type}.
Variable inputs : list T.
Variable op : T → Store → Result R * Store.
Variable limit : nat.
Variable onProgress : nat → Store → Store.
Variable σ : schedule.

(** The mapper between two completions: the inputs not started yet and
    the outstanding ones, each with its position in [inputs]; the slot
    of every input, filled once its operation has settled; the number
    of completed inputs; the store the operations act on. *)
Record Mapper := {
  pm_pending : list (nat * T);
  pm_running : list (nat * T);
  pm_results : list (option (Result R));
  pm_done : nat;
  pm_store : Store;
}.

(** The first [limit] inputs are started at once. *)
Definition pm_start (s : Store) : Mapper :=
  let work := imap pair inputs in
  {| pm_pending := drop limit work;
     pm_running := take limit work;
     pm_results := replicate (length inputs) None;
     pm_done := 0;
     pm_store := s |}.

(** The [k]-th outstanding operation settles: its result, fulfilled or
    rejected, is recorded in the slot of its input, then [onProgress]
    is called with the cumulative count, and the next unstarted input,
    if any, is started. An operation that never settles leaves the
    mapper waiting for ever. An operation acts on the store when it
    settles: the operations of this file start with their request and do
    the rest once the answer is there. *)
Definition pm_settle (k : nat) (m : Mapper) : option Mapper :=
  match pm_running m !! k with
  | None => None
  | Some (i, x) =>
      match op x (pm_store m) with
      | (Pending, _) => None
      | (r, s) =>
          let done := S (pm_done m) in
          Some {| pm_pending := drop 1 (pm_pending m);
                  pm_running := delete k (pm_running m) ++ take 1 (pm_pending m);
                  pm_results := <[i := Some r]> (pm_results m);
                  pm_done := done;
                  pm_store := onProgress done s |}
      end
  end.

(** Completions follow one another until nothing is outstanding. With
    nothing outstanding and inputs left (a limit of 0) nothing can ever
    complete. *)
Fixpoint pm_run (fuel : nat) (m : Mapper) : option Mapper :=
  match pm_running m, pm_pending m with
  | [], [] => Some m
  | [], _ :: _ => None
  | _ :: _, _ =>
      match fuel with
      | O => None
      | S fuel =>
          match pm_settle (σ (pm_done m) `mod` length (pm_running m))%nat m with
          | Some m' => pm_run fuel m'
          | None => None
          end
      end
  end.

(** The reference the mapper is compared with: the operations completing
    one after the other in a given order. *)
Fixpoint completions (order : list (nat * T))
    (slots : list (option (Result R))) (done : nat) (s : Store)
    : list (option (Result R)) * nat * Store :=
  match order with
  | [] => (slots, done, s)
  | (i, x) :: rest =>
      let '(r, s') := op x s in
      completions rest (<[i := Some r]> slots) (S done)
        (onProgress (S done) s')
  end.

(** Modelled from the spec: [parallelMap] of [@/utilities/Parallel], which
    this file imports and whose source is not part of it. Section 4.1:
    the output has the results in input order; at most [limit]
    operations are outstanding and the next unstarted input starts as
    soon as one completes; [onProgress] is called once per completed
    input, after its result is recorded, with the cumulative count; an
    operation that rejects is recorded as the failed result of its
    input and nothing is cancelled; no input gives an empty result at
    once. The mapper itself never rejects. *)
Definition parallelMap (s : Store) : Result (list (Result R)) * Store :=
  match pm_run (length inputs) (pm_start s) with
  | Some m =>
      match mapM (λ slot, slot) (pm_results m) with
      | Some rs => (Fulfilled rs, pm_store m)
      | None => (Pending, pm_store m)
      end
  | None => (Pending, s)
  end.

End ParallelMap.

(** ** The service *)

Inductive ListingError := NO_LOGIN | PARSING_ERROR.

(** The object [loadAvailableBookList] resolves to; each field may be
    missing. *)
Record Listing := {
  listing_doc : option Document;
  listing_books : option (list FetchedBook);
  listing_error : option ListingError;
}.

Definition productImagePrefix : string :=
  "https://image.bookwalker.com.tw/upload/product/".

(** The element before the last one of a list of children:
    [parent.lastElementChild!.previousElementSibling!]. *)
Definition penultimate (l : list Element) : option Element :=
  match rev l with
  | _ :: e :: _ => Some e
  | _ => None
  end.

Definition noLoginMessage : Message :=
  {| msg := "解析藏書失敗！請檢查是否已登入 Book Walker 網站。";
     error := Some true |}.

Definition parsingErrorMessage : Message :=
  {| msg := "解析藏書失敗！請檢查 Book Walker 網站是否正常，或其版面改版需要更新助手。";
     error := Some true |}.

Definition partialFailureMessage : Message :=
  {| msg := "解析藏書有部分失敗！請重試。";
     error := Some true |}.

Definition booksLoadingMessage (shown : string) (pageCount : Js.number) : Message :=
  {| msg := "藏書資料載入中 " +:+ shown +:+ " / " +:+ Js.toString pageCount;
     error := None |}.

Definition seriesLoadingMessage (done count : nat) : Message :=
  {| msg := "系列資料載入中 " +:+ pretty done +:+ " / " +:+ pretty count;
     error := None |}.

(** [book.series = loaded] *)
Definition withSeries (loaded : string) (b : Book) : Book :=
  {| id := id b; name := name b; series := Some loaded;
     favorite := favorite b; bookmark := bookmark b |}.

Definition saveBooks : M unit :=
  update (λ w, set_storage_books (books w) w).

(** The callback of [books.map] in [recordBookList]. *)
Definition mergeBook (originBooks : list Book) (book : FetchedBook) : Book :=
  let oldBook := find (λ old, Js.strict_eq (id old) (fetched_id book)) originBooks in
  {| id := fetched_id book;
     name := fetched_name book;
     series := oldBook ≫= series;
     favorite := from_option favorite false oldBook;
     bookmark := from_option bookmark false oldBook |}.

Definition recordBookList (originBooks : list Book) (fetched : list FetchedBook) : M unit :=
  update (set_books (λ bs, bs ++ (mergeBook originBooks <$> fetched)));;
  saveBooks.

(** The callback of [.map(row => ...)] in [loadAvailableBookList]; [None]
    is a TypeError, raised inside the [try] block. *)
Definition parseRow (row : BuyInfo) : option FetchedBook :=
  title ← head (buy_book row);
  image ← head (bookbor row);
  source ← src image;
  Some {| fetched_name := innerHTML title;
          fetched_id :=
            Js.parseInt
              (Js.beforeSlash
                 (Js.substringFrom (String.length productImagePrefix) source)) |}.

(** The text that [parsePageCount] hands to [parseInt]; [None] is a
    TypeError. *)
Definition pageCountText (doc : Document) : option string :=
  pagination ← head (bw_pagination doc);
  link ← penultimate (children pagination);
  label ← head (children link);
  Some (innerHTML label).

Definition parsePageCount (doc : Document) : M Js.number :=
  text ← deref (pageCountText doc);
  mret (Js.parseInt text).

(** The anchor that [loadSeries] inspects; [None] is a TypeError. *)
Definition seriesAnchor (doc : Document) : option Element :=
  breadcrumb ← breadcrumb_list doc;
  trail ← head (children breadcrumb);
  item ← penultimate (children trail);
  head (children item).

(** What [loadAvailableBookList] does with the response of [ky.get]: the
    redirection test, then the [try] block, whose TypeErrors the [catch]
    turns into PARSING_ERROR. *)
Definition listingOfResponse (redirected : bool) (doc : Document) : Listing :=
  if redirected
  then {| listing_doc := None; listing_books := None;
          listing_error := Some NO_LOGIN |}
  else
    match order_book doc ≫= mapM parseRow with
    | Some rows =>
        {| listing_doc := Some doc; listing_books := Some rows;
           listing_error := None |}
    | None =>
        {| listing_doc := None; listing_books := None;
           listing_error := Some PARSING_ERROR |}
    end.

(** The [try] block of [loadSeries]; [None] is a TypeError, raised by a
    missing element or a missing [href]. *)
Definition seriesOfDocument (doc : Document) : option string :=
  element ← seriesAnchor doc;
  link ← href element;
  Some (if Js.includes link "/search/?series="
        then Js.trim (Js.substringTo (String.length (innerHTML element) - 2)
                                     (innerHTML element))
        else "").

(** [Array.from({ length: pageCount - 1 }, (_, i) => i + 2)] *)
Definition pagesNeedLoad (pageCount : Js.number) : list Z :=
  (λ i, Z.of_nat i + 2) <$> seq 0 (Js.toLength (Js.pred pageCount)).

Section Service.
(** The remote site during one run. *)
Variable remote : Url → KyAnswer.

Definition ky_get (url : Url) : M (bool * Document) := λ w,
  match remote url with
  | KyRejects => (Rejected HTTPError, log_request url w)
  | KyResponse redirected body => (Fulfilled (redirected, body), log_request url w)
  end.

Definition loadAvailableBookList (page : Z) : M Listing :=
  '(redirected, doc) ← ky_get (AvailableBookList page);
  mret (listingOfResponse redirected doc).

(** The [catch] block rethrows what it caught. *)
Definition loadSeries (id : Js.number) : M string :=
  '(_, doc) ← ky_get (Product id);
  deref (seriesOfDocument doc).

(** The operation mapped over the pages 2 .. pageCount. *)
Definition loadPage (originBooks : list Book) (page : Z) : M (option ListingError) :=
  listing ← loadAvailableBookList page;
  match listing_error listing with
  | Some error => mret (Some error)
  | None =>
      fetched ← deref (listing_books listing);
      recordBookList originBooks fetched;;
      mret None
  end.

(** The operation mapped over [bookNeedLoadSeries]. An element of that
    array is the very object held by [state.books]; it is represented
    by its position there, and the assignment to [book.series] updates
    [state.books] at this position. [book.id] is read when the operation
    starts; nothing in a run assigns an id, so the record read at
    completion has the same one. *)
Definition loadBookSeries (position : nat) : M unit := λ w,
  match books w !! position with
  | None => (Fulfilled tt, w)
  | Some book =>
      (loaded ← loadSeries (id book);
       update (set_books (alter (withSeries loaded) position));;
       saveBooks) w
  end.

(** [state.books.filter(book => book.series === null)], as positions. *)
Definition bookNeedLoadSeries (bs : list Book) : list nat :=
  omap (λ '(position, book),
          match series book with None => Some position | Some _ => None end)
       (imap pair bs).

(** [loadPageResults.some(error => error !== null)]: only a slot holding
    [null] passes; a rejection recorded by the mapper is not [null]. *)
Definition isFailure (slot : Result (option ListingError)) : bool :=
  match slot with
  | Fulfilled None => false
  | _ => true
  end.

Definition reloadCollection (σpages σseries : schedule) : M unit :=
  update (set_loading true);;
  originBooks ← read books;
  update (set_books (λ _, []));;
  first ← loadAvailableBookList 1;
  match listing_error first with
  | Some NO_LOGIN => update (set_loadingMessage (Some noLoginMessage))
  | Some PARSING_ERROR => update (set_loadingMessage (Some parsingErrorMessage))
  | None =>
      doc ← deref (listing_doc first);
      pageCount ← parsePageCount doc;
      fetched ← deref (listing_books first);
      recordBookList originBooks fetched;;
      update (set_loadingMessage (Some (booksLoadingMessage "1" pageCount)));;
      loadPageResults ←
        parallelMap (pagesNeedLoad pageCount) (loadPage originBooks) 5
          (λ done, set_loadingMessage
             (Some (booksLoadingMessage (pretty (done + 1)%nat) pageCount)))
          σpages;
      if existsb isFailure loadPageResults
      then update (set_loadingMessage (Some partialFailureMessage))
      else
        need ← read (λ w, bookNeedLoadSeries (books w));
        let bookNeedLoadSeriesCount := length need in
        parallelMap need loadBookSeries 5
          (λ done, set_loadingMessage
             (Some (seriesLoadingMessage done bookNeedLoadSeriesCount)))
          σseries;;
        update (set_loading false);;
        update (set_loadingMessage None)
  end.

End Service.

(** [found.favorite = !found.favorite] on the first book with this id. *)
Fixpoint toggleFirst (flip : Book → Book) (bookId : Js.number) (bs : list Book)
    : option (list Book) :=
  match bs with
  | [] => None
  | book :: rest =>
      if Js.strict_eq (id book) bookId
      then Some (flip book :: rest)
      else cons book <$> toggleFirst flip bookId rest
  end.

Definition switchFavorite (bookId : Js.number) : M unit := λ w,
  match toggleFirst (λ b, {| id := id b; name := name b; series := series b;
                             favorite := negb (favorite b);
                             bookmark := bookmark b |}) bookId (books w) with
  | None => (Fulfilled tt, w)
  | Some bs => saveBooks (set_books (λ _, bs) w)
  end.

Definition switchBookmark (bookId : Js.number) : M unit := λ w,
  match toggleFirst (λ b, {| id := id b; name := name b; series := series b;
                             favorite := favorite b;
                             bookmark := negb (bookmark b) |}) bookId (books w) with
  | None => (Fulfilled tt, w)
  | Some bs => saveBooks (set_books (λ _, bs) w)
  end.

Definition switchTopSeries (name : string) : M unit :=
  current ← read topSeries;
  (if existsb (String.eqb name) current
   then update (set_topSeries (filter (λ s, s ≠ name)))
   else update (set_topSeries (λ l, l ++ [name])));;
  update (λ w, set_storage_topSeries (topSeries w) w).

(** ** Vocabulary of the statements *)

(** What a promise settles to. The requests of this file settle to the
    same result in every world (lemmas [loadAvailableBookList_run],
    [loadPage_run], [loadSeries_run] below); it is read off the initial one. *)
Definition resultOf {A} (c : M A) : Result A := (c (initialState None None)).1.

Section Vocabulary.
Variable remote : Url → KyAnswer.

(** The rows of a listing page that was fetched without error, none for
    a page whose fetch failed. *)
Definition fetchedRows (page : Z) : list FetchedBook :=
  match resultOf (loadAvailableBookList remote page) with
  | Fulfilled listing =>
      match listing_error listing with
      | None => default [] (listing_books listing)
      | Some _ => []
      end
  | _ => []
  end.

(** A page of the concurrent pass fails when its operation resolves to
    an error or rejects. *)
Definition pageFails (page : Z) : bool :=
  isFailure (resultOf (loadPage remote [] page)).

(** Page 1 was fetched and parsed and its pagination was found: the
    page count read from it. *)
Definition pageCountOf : option Js.number :=
  match resultOf (loadAvailableBookList remote 1) with
  | Fulfilled listing =>
      match listing_error listing with
      | None => doc ← listing_doc listing; Js.parseInt <$> pageCountText doc
      | Some _ => None
      end
  | _ => None
  end.

(** The newly fetched listing: the rows of every page the run fetched
    without error. *)
Definition listedBooks : list FetchedBook :=
  match pageCountOf with
  | Some pageCount => (1 :: pagesNeedLoad pageCount) ≫= fetchedRows
  | None => []
  end.

(** What the operation of the enrichment pass settles to for a record. *)
Definition seriesOutcome (b : Book) : Result unit :=
  resultOf (loadSeries remote (id b);; mret ()).

(** A record after the enrichment pass: a record without series gets
    the series that [loadSeries] resolves to, and keeps none when
    [loadSeries] rejects. *)
Definition enrich (b : Book) : Book :=
  match series b, resultOf (loadSeries remote (id b)) with
  | None, Fulfilled loaded => withSeries loaded b
  | _, _ => b
  end.

(** The world during the enrichment pass that started in [w2]: every
    record is as the listing pass left it or already enriched, and the
    rest of the state is untouched. *)
Definition enriching (w2 w : World) : Prop :=
  length (books w) = length (books w2) ∧
  (∀ i b, books w2 !! i = Some b →
          books w !! i = Some b ∨
          (series b = None ∧ books w !! i = Some (enrich b))) ∧
  loading w = loading w2 ∧
  topSeries w = topSeries w2 ∧
  storage_topSeries w = storage_topSeries w2 ∧
  (storage_books w2 = Some (books w2) → storage_books w = Some (books w)).

End Vocabulary.

(** The world when the answer to the request of page 1 arrives: the run
    is flagged as loading, the record set has been emptied. *)
Definition afterFirstRequest (w : World) : World :=
  log_request (AvailableBookList 1) (set_books (λ _, []) (set_loading true w)).

(** The world once page 1 is recorded and the first progress shown. *)
Definition firstPageRecorded (originBooks : list Book) (rows : list FetchedBook)
    (pageCount : Js.number) (w : World) : World :=
  let recorded := set_books (λ bs, bs ++ (mergeBook originBooks <$> rows)) w in
  set_loadingMessage (Some (booksLoadingMessage "1" pageCount))
    (set_storage_books (books recorded) recorded).

(** The previous entity with the same id, as [Array.prototype.find] with
    [===] sees it: the first one in the previous record set. *)
Definition previousOf (originBooks : list Book) (i : Js.number) (old : Book) : Prop :=
  ∃ before after,
    originBooks = before ++ old :: after ∧
    Js.strict_eq (id old) i = true ∧
    Forall (λ b, Js.strict_eq (id b) i = false) before.

(** ** Vocabulary of the further statements *)

(** [found.favorite = !found.favorite] and [found.bookmark = !found.bookmark]. *)
Definition flipFavorite (b : Book) : Book :=
  {| id := id b; name := name b; series := series b;
     favorite := negb (favorite b); bookmark := bookmark b |}.

Definition flipBookmark (b : Book) : Book :=
  {| id := id b; name := name b; series := series b;
     favorite := favorite b; bookmark := negb (bookmark b) |}.

(** No book of the record set has this id, as [find] with [==] sees it. *)
Definition unknownId (bs : list Book) (i : Js.number) : Prop :=
  ∀ b, b ∈ bs → Js.strict_eq (id b) i = false.

(** A toggle applied to the record set, an unknown id leaving it alone. *)
Definition toggled (flip : Book → Book) (i : Js.number) (bs : list Book)
    : list Book :=
  default bs (toggleFirst flip i bs).

Section Outcome.
Variable remote : Url → KyAnswer.

(** The listing pass ended without a failure: page 1 gave a page count
    and no later page failed. *)
Definition listingDone : bool :=
  match pageCountOf remote with
  | Some pageCount => negb (existsb (pageFails remote) (pagesNeedLoad pageCount))
  | None => false
  end.

(** The listing pages a run requests: page 1, then the pages that the
    page count of page 1 announces. *)
Definition pagesRequested : list Z :=
  1 :: match pageCountOf remote with
       | Some pageCount => pagesNeedLoad pageCount
       | None => []
       end.

(** A merged record at the end of the run: enriched when the enrichment
    pass ran. *)
Definition finished (b : Book) : Book :=
  if listingDone then enrich remote b else b.

End Outcome.

(** ** Sample sites and worlds *)

Module Sample.

Definition emptyDocument : Document :=
  {| order_book := None; bw_pagination := []; breadcrumb_list := None |}.

Definition item (label : string) (target : option string) : Element :=
  El "" None None [El label target None []].

(** A pagination bar whose last page is [lastPage], followed by "next". *)
Definition pagination (lastPage : string) : Element :=
  El "" None None [item "1" None; item lastPage None; item ">" None].

Definition row (title productId : string) : BuyInfo :=
  {| buy_book := [El title None None []];
     bookbor := [El "" None
                   (Some (productImagePrefix +:+ productId +:+ "/cover.jpg")) []] |}.

Definition listingPage (rows : list BuyInfo) (lastPage : string) : Document :=
  {| order_book := Some rows;
     bw_pagination := [pagination lastPage];
     breadcrumb_list := None |}.

(** A product page whose breadcrumb ends with the series link and the title. *)
Definition productPage (seriesLabel : string) : Document :=
  {| order_book := None;
     bw_pagination := [];
     breadcrumb_list :=
       Some (El "" None None
               [El "" None None
                  [item "home" (Some "/");
                   item seriesLabel (Some "/search/?series=5");
                   El "title" None None []]]) |}.

(** Every request is redirected to the login page. *)
Definition notLoggedIn (url : Url) : KyAnswer := KyResponse true emptyDocument.

(** Page 1 has its rows but no pagination bar. *)
Definition noPagination (url : Url) : KyAnswer :=
  KyResponse false
    {| order_book := Some [row "A" "10"];
       bw_pagination := [];
       breadcrumb_list := None |}.

(** A single page that lists the same product twice. *)
Definition duplicated (url : Url) : KyAnswer :=
  KyResponse false (listingPage [row "A" "10"; row "A" "10"] "1").

(** Three pages, of which page 2 has lost its structure. *)
Definition threePages (url : Url) : KyAnswer :=
  match url with
  | AvailableBookList 1 => KyResponse false (listingPage [row "A" "10"; row "B" "11"] "3")
  | AvailableBookList 3 => KyResponse false (listingPage [row "C" "12"] "3")
  | _ => KyResponse false emptyDocument
  end.

(** Two good pages; the product page of 10 names its series, the one of
    11 has no breadcrumb. *)
Definition twoPages (url : Url) : KyAnswer :=
  match url with
  | AvailableBookList 1 => KyResponse false (listingPage [row "A" "10"] "2")
  | AvailableBookList 2 => KyResponse false (listingPage [row "B" "11"] "2")
  | Product (Js.Num 10) => KyResponse false (productPage "Saga (1)")
  | _ => KyResponse false emptyDocument
  end.

(** A single page whose pagination bar shows no number. *)
Definition unreadablePageCount (url : Url) : KyAnswer :=
  match url with
  | AvailableBookList _ => KyResponse false (listingPage [row "A" "10"] "last")
  | Product _ => KyResponse false (productPage "Saga (1)")
  end.

Definition inOrder : schedule := λ _, 0%nat.
Definition secondFirst : schedule := λ _, 1%nat.

(** A session that already knows product 10, marked as favorite. *)
Definition previous : World :=
  initialState
    (Some [ {| id := Js.Num 10; name := "old title"; series := None;
               favorite := true; bookmark := false |} ])
    None.

(** A mapper run: inputs 1, 2, 3 of which 2 rejects; the store logs the
    completions. *)
Definition tenfold (x : nat) (log : list nat) : Result nat * list nat :=
  (if Nat.eqb x 2 then Rejected HTTPError else Fulfilled (10 * x)%nat, log ++ [x]).

End Sample.

(** ** Further samples *)

Module Case.

(** The record of product 10 as the listing pass leaves it. *)
Definition listedA : Book :=
  {| id := Js.Num 10; name := "A"; series := None;
     favorite := true; bookmark := false |}.

(** A world in the middle of a run, with this record alone. *)
Definition afterListing : World := set_books (λ _, [listedA]) Sample.previous.

(** The book of [Sample.previous]. *)
Definition known : Book :=
  {| id := Js.Num 10; name := "old title"; series := None;
     favorite := true; bookmark := false |}.

End Case.

(** * Verification *)

(** ** The JavaScript primitives on samples *)

Example parseInt_leading_digits : Js.parseInt " 12</a>" = Js.Num 12.
Proof. reflexivity. Qed.

Example parseInt_no_digit : Js.parseInt "next" = Js.NaN.
Proof. reflexivity. Qed.

Example parseInt_hexadecimal : Js.parseInt "0x1f" = Js.Num 31.
Proof. reflexivity. Qed.

Example trim_both_ends : Js.trim "  a b  " = "a b".
Proof. reflexivity. Qed.

Example strict_eq_NaN : Js.strict_eq Js.NaN Js.NaN = false.
Proof. reflexivity. Qed.

Example pagesNeedLoad_three : pagesNeedLoad (Js.Num 3) = [2; 3].
Proof. reflexivity. Qed.

Example pagesNeedLoad_NaN : pagesNeedLoad Js.NaN = [].
Proof. reflexivity. Qed.

(** ** The mapper *)

Section ParallelMapFacts.
Context {Store T R : Type}.
Variable op : T → Store → Result R * Store.
Variable onProgress : nat → Store → Store.

Implicit Types (order : list (nat * T)) (slots : list (option (Result R))).

Lemma completions_cons i x order slots d s :
  completions op onProgress ((i, x) :: order) slots d s =
  completions op onProgress order (<[i := Some (op x s).1]> slots)
    (S d) (onProgress (S d) (op x s).2).
Proof. simpl. by destruct (op x s). Qed.

Lemma completions_count order : ∀ slots d s slots' d' s',
  completions op onProgress order slots d s = (slots', d', s') →
  length slots' = length slots ∧ d' = (d + length order)%nat.
Proof.
  induction order as [|[i x] order IH]; intros slots d s slots' d' s' E.
  - simpl in E. simplify_eq. split; [done | simpl; lia].
  - rewrite completions_cons in E. apply IH in E as [-> ->].
    rewrite length_insert. split; [done | simpl; lia].
Qed.

(** A slot is left alone, or holds the result of an operation on an
    input queued for it, run in a store that satisfies the invariant. *)
Lemma completions_slot (I : Store → Prop) order :
  (∀ x s, x ∈ order.*2 → I s → I (op x s).2) →
  (∀ d s, I s → I (onProgress d s)) →
  ∀ slots d s slots' d' s' i,
    completions op onProgress order slots d s = (slots', d', s') →
    I s →
    (i < length slots)%nat →
    ((i ∉ order.*1) ∧ slots' !! i = slots !! i) ∨
    (∃ x s0, (i, x) ∈ order ∧ I s0 ∧ slots' !! i = Some (Some (op x s0).1)).
Proof.
  intros HI HIp.
  induction order as [|[j x] order IH]; intros slots d s slots' d' s' i E Hs Hi.
  - simpl in E. simplify_eq. left. split; [apply not_elem_of_nil | done].
  - rewrite completions_cons in E.
    assert (Hx : x ∈ ((j, x) :: order).*2) by (rewrite fmap_cons; left).
    destruct (IH (λ y s Hy, HI y s ltac:(rewrite fmap_cons; by right))
                _ _ _ _ _ _ i E) as [[Hn Hl] | (y & s0 & Hy & Hs0 & Hl)].
    + by apply HIp, HI.
    + by rewrite length_insert.
    + destruct (decide (j = i)) as [-> | Hne].
      * right. exists x, s. split; [left |]. split; [done |].
        by rewrite Hl, list_lookup_insert_eq.
      * left. split.
        -- rewrite fmap_cons, not_elem_of_cons. by split.
        -- by rewrite Hl, list_lookup_insert_ne.
    + right. exists y, s0. split; [by right | done].
Qed.

(** Invariants of the store, and what each operation establishes. *)
Lemma completions_post (I : Store → Prop) (Q : T → Store → Prop) order :
  (∀ x s, x ∈ order.*2 → I s → I (op x s).2) →
  (∀ d s, I s → I (onProgress d s)) →
  (∀ x s, x ∈ order.*2 → I s → Q x (op x s).2) →
  (∀ x y s, y ∈ order.*2 → I s → Q x s → Q x (op y s).2) →
  (∀ x d s, Q x s → Q x (onProgress d s)) →
  ∀ slots d s slots' d' s',
    completions op onProgress order slots d s = (slots', d', s') →
    I s →
    I s' ∧ ∀ x, x ∈ order.*2 ∨ Q x s → Q x s'.
Proof.
  intros HI HIp HQ HQs HQp.
  induction order as [|[j y] order IH]; intros slots d s slots' d' s' E Hs.
  - simpl in E. simplify_eq. split; [done |].
    intros x [Hx | Hx]; [by apply elem_of_nil in Hx | done].
  - rewrite completions_cons in E.
    assert (Hy : y ∈ ((j, y) :: order).*2) by (rewrite fmap_cons; left).
    assert (Hsub : ∀ x, x ∈ order.*2 → x ∈ ((j, y) :: order).*2)
      by (intros x Hx; rewrite fmap_cons; by right).
    destruct (IH (λ x s Hx, HI x s (Hsub x Hx))
                 (λ x s Hx, HQ x s (Hsub x Hx))
                 (λ x z s Hz, HQs x z s (Hsub z Hz)) _ _ _ _ _ _ E)
      as [HI' HQ']; [by apply HIp, HI |].
    split; [done |]. intros x Hx. apply HQ'.
    rewrite fmap_cons, elem_of_cons in Hx.
    destruct Hx as [[-> | Hx] | Hx]; [right | by left | right].
    + by apply HQp, HQ.
    + by apply HQp, HQs.
Qed.

(** A part of the store that every operation only appends to. *)
Lemma completions_append {B} (I : Store → Prop) (obs : Store → list B)
    (g : T → list B) order :
  (∀ x s, x ∈ order.*2 → I s → I (op x s).2) →
  (∀ d s, I s → I (onProgress d s)) →
  (∀ x s, x ∈ order.*2 → I s → obs (op x s).2 = obs s ++ g x) →
  (∀ d s, obs (onProgress d s) = obs s) →
  ∀ slots d s slots' d' s',
    completions op onProgress order slots d s = (slots', d', s') →
    I s →
    obs s' = obs s ++ (order.*2 ≫= g).
Proof.
  intros HI HIp Hop Hp.
  induction order as [|[j y] order IH]; intros slots d s slots' d' s' E Hs.
  - simpl in E. simplify_eq. by rewrite app_nil_r.
  - rewrite completions_cons in E.
    assert (Hy : y ∈ ((j, y) :: order).*2) by (rewrite fmap_cons; left).
    apply IH in E.
    + rewrite E, Hp, Hop by done. by rewrite <- app_assoc.
    + intros x s0 Hx. apply HI. rewrite fmap_cons. by right.
    + intros x s0 Hx. apply Hop. rewrite fmap_cons. by right.
    + by apply HIp, HI.
Qed.

Variable inputs : list T.
Variable limit : nat.
Variable σ : schedule.

Lemma imap_pair_snd (l : list T) : (imap pair l).*2 = l.
Proof.
  apply list_eq. intros i. rewrite list_lookup_fmap, list_lookup_imap.
  by destruct (l !! i).
Qed.

Lemma order_inputs order x :
  order ≡ₚ imap pair inputs → x ∈ order.*2 ↔ x ∈ inputs.
Proof. intros ->. by rewrite imap_pair_snd. Qed.
(** The cap on outstanding operations: it holds at the start and every
    completion keeps it. *)
Lemma pm_start_cap (s : Store) :
  (length (pm_running (R := R) (pm_start inputs limit s)) ≤ limit)%nat.
Proof. simpl. rewrite length_take. lia. Qed.

Lemma pm_settle_cap k m m' :
  pm_settle op onProgress k m = Some m' →
  (length (pm_running m) ≤ limit)%nat →
  (length (pm_running m') ≤ limit)%nat.
Proof.
  unfold pm_settle. intros Hsettle Hcap.
  destruct (pm_running m !! k) as [[i x]|] eqn:Hk; [| done].
  assert (Hlt : (k < length (pm_running m))%nat) by eauto using lookup_lt_Some.
  destruct (op x (pm_store m)) as [[r|e|] s1]; simplify_eq; simpl;
    rewrite length_app, length_delete, length_take by eauto; lia.
Qed.

Lemma pm_run_completions fuel : ∀ m,
  (∀ x s, (op x s).1 ≠ Pending) →
  (pm_running m = [] → pm_pending m = []) →
  (length (pm_running m) + length (pm_pending m) ≤ fuel)%nat →
  ∃ order m',
    pm_run op onProgress σ fuel m = Some m' ∧
    order ≡ₚ pm_running m ++ pm_pending m ∧
    completions op onProgress order (pm_results m) (pm_done m) (pm_store m)
      = (pm_results m', pm_done m', pm_store m').
Proof.
  induction fuel as [|fuel IH]; intros m Hop Hlim Hfuel.
  - destruct (pm_running m) as [|r rs] eqn:Er; [| simpl in Hfuel; lia].
    rewrite (Hlim eq_refl) in *. exists [], m. simpl. by rewrite Er, Hlim.
  - destruct (pm_running m) as [|r rs] eqn:Er.
    { exists [], m. simpl. by rewrite Er, Hlim. }
    simpl. rewrite Er. rewrite <- Er.
    set (k := (σ (pm_done m) `mod` length (pm_running m))%nat).
    assert (Hk : (k < length (pm_running m))%nat).
    { apply Nat.mod_upper_bound. rewrite Er. simpl. lia. }
    destruct (lookup_lt_is_Some_2 _ _ Hk) as [[i x] Hix].
    unfold pm_settle. rewrite Hix.
    destruct (op x (pm_store m)) as [r0 s1] eqn:Eop.
    assert (Hr0 : r0 ≠ Pending) by (specialize (Hop x (pm_store m)); by rewrite Eop in Hop).
    set (m1 := {| pm_pending := drop 1 (pm_pending m);
                  pm_running := delete k (pm_running m) ++ take 1 (pm_pending m);
                  pm_results := <[i := Some r0]> (pm_results m);
                  pm_done := S (pm_done m);
                  pm_store := onProgress (S (pm_done m)) s1 |}).
    destruct (IH m1 Hop) as (order & m' & Hrun & Hperm & Hc).
    + simpl. intros [_ Ht]%app_eq_nil. destruct (pm_pending m); [done | discriminate].
    + simpl. rewrite length_app, length_delete by eauto.
      assert (length (pm_running m) = S (length rs)) by (by rewrite Er).
      destruct (pm_pending m); simpl in *; rewrite ?length_drop; lia.
    + exists ((i, x) :: order), m'. split; [| split].
      * destruct r0; [exact Hrun | exact Hrun | done].
      * rewrite Hperm. simpl. rewrite <- app_assoc, take_drop.
        change (r :: rs ++ pm_pending m) with ((r :: rs) ++ pm_pending m).
        rewrite <- Er, app_comm_cons. apply Permutation_app; [| done].
        symmetry. by apply delete_Permutation.
      * rewrite completions_cons, Eop. exact Hc.
Qed.

Lemma parallelMap_completions s :
  (1 ≤ limit)%nat →
  (∀ x s, (op x s).1 ≠ Pending) →
  ∃ rs s' order,
    parallelMap inputs op limit onProgress σ s = (Fulfilled rs, s') ∧
    order ≡ₚ imap pair inputs ∧
    completions op onProgress order (replicate (length inputs) None) 0 s
      = (Some <$> rs, length inputs, s') ∧
    length rs = length inputs ∧
    (∀ I : Store → Prop,
       (∀ x s, x ∈ inputs → I s → I (op x s).2) →
       (∀ d s, I s → I (onProgress d s)) →
       I s →
       ∀ i x, inputs !! i = Some x →
              ∃ s0, I s0 ∧ rs !! i = Some (op x s0).1).
Proof.
  intros Hlimit Hop.
  destruct (pm_run_completions (length inputs) (pm_start inputs limit s) Hop)
    as (order & m' & Hrun & Hperm & Hc).
  - simpl. intros Ht. destruct (imap pair inputs) as [|w ws] eqn:Ew; [by rewrite drop_nil |].
    destruct limit; [lia | discriminate].
  - simpl. rewrite <- length_app, take_drop, length_imap. done.
  - simpl in Hperm, Hc. rewrite take_drop in Hperm.
    destruct (completions_count _ _ _ _ _ _ _ Hc) as [Hlen Hd].
    rewrite length_replicate in Hlen.
    assert (Hslots : ∀ I : Store → Prop,
              (∀ x s, x ∈ inputs → I s → I (op x s).2) →
              (∀ d s, I s → I (onProgress d s)) →
              I s →
              ∀ i x, inputs !! i = Some x →
              ∃ s0, I s0 ∧ pm_results m' !! i = Some (Some (op x s0).1)).
    { intros I HI HIp Hs i x Hix.
      assert (Hi : (i < length inputs)%nat) by eauto using lookup_lt_Some.
      destruct (completions_slot I order
                  (λ y s0 Hy, HI y s0 (proj1 (order_inputs order y Hperm) Hy)) HIp
                  _ _ _ _ _ _ i Hc Hs)
        as [[Hn _] | (y & s0 & Hy & Hs0 & Hl)].
      - by rewrite length_replicate.
      - exfalso. apply Hn. rewrite Hperm. apply list_elem_of_fmap.
        exists (i, x). split; [done |]. apply elem_of_lookup_imap. eauto.
      - rewrite Hperm in Hy. apply elem_of_lookup_imap in Hy as (i' & y' & Hp & Hy').
        simplify_eq. eauto. }
    assert (Hall : ∃ rs, mapM (λ slot, slot) (pm_results m') = Some rs).
    { apply (mapM_is_Some (λ slot, slot)), Forall_lookup. intros i slot Hl.
      destruct (lookup_lt_is_Some_2 inputs i) as [x Hix].
      { rewrite <- Hlen. eauto using lookup_lt_Some. }
      destruct (Hslots (λ _, True) ltac:(done) ltac:(done) Logic.I i x Hix)
        as (s0 & _ & Hs0).
      simplify_eq. by eexists. }
    destruct Hall as [rs Hrs].
    assert (Hfm : pm_results m' = Some <$> rs).
    { apply mapM_Some_1 in Hrs. clear -Hrs.
      induction Hrs as [|slot r slots rs' -> _ IH]; [done | by rewrite fmap_cons, IH]. }
    exists rs, (pm_store m'), order.
    unfold parallelMap. rewrite Hrun, Hrs. split; [done |]. split; [done |].
    assert (Hlen' : length rs = length inputs)
      by (by rewrite <- Hlen, Hfm, length_fmap).
    split; [| split; [done |]].
    + rewrite Hc, Hfm, Hd, Hperm, length_imap. done.
    + intros I HI HIp Hs i x Hix.
      destruct (Hslots I HI HIp Hs i x Hix) as (s0 & HIs0 & Hs0).
      exists s0. split; [done |].
      rewrite Hfm, list_lookup_fmap in Hs0.
      destruct (rs !! i); simpl in Hs0; by simplify_eq.
Qed.

(** When the result of an operation is the same in every store that
    satisfies an invariant, the output is the image of the inputs. *)
Lemma parallelMap_results (I : Store → Prop) (f : T → Result R) (rs : list (Result R)) :
  (∀ x s, x ∈ inputs → I s → (op x s).1 = f x) →
  (∀ i x, inputs !! i = Some x → ∃ s0, I s0 ∧ rs !! i = Some (op x s0).1) →
  length rs = length inputs →
  rs = f <$> inputs.
Proof.
  intros Hf Hrs Hlen. apply list_eq. intros i. rewrite list_lookup_fmap.
  destruct (inputs !! i) as [x|] eqn:Hix; simpl.
  - destruct (Hrs i x Hix) as (s0 & Hs0 & ->).
    rewrite Hf; eauto using list_elem_of_lookup_2.
  - apply lookup_ge_None. rewrite Hlen. by apply lookup_ge_None.
Qed.
End ParallelMapFacts.

(** ** The requests *)

Ltac run_M :=
  unfold resultOf, loadPage, loadAvailableBookList, loadSeries, recordBookList,
    parsePageCount, saveBooks, ky_get, deref, throw, update, read,
    mbind, M_bind, mret, M_ret in *;
  simpl in *.

Section Requests.
Variable remote : Url → KyAnswer.

Lemma listingOfResponse_ok redirected doc :
  listing_error (listingOfResponse redirected doc) = None →
  ∃ rows, listingOfResponse redirected doc =
          {| listing_doc := Some doc; listing_books := Some rows;
             listing_error := None |}.
Proof.
  unfold listingOfResponse. destruct redirected; [done |].
  destruct (order_book doc ≫= mapM parseRow) as [rows|]; [eauto | done].
Qed.

Lemma loadAvailableBookList_run page w :
  loadAvailableBookList remote page w =
  (resultOf (loadAvailableBookList remote page),
   log_request (AvailableBookList page) w).
Proof. run_M. by destruct (remote (AvailableBookList page)). Qed.


Lemma loadSeries_settles i : resultOf (loadSeries remote i) ≠ Pending.
Proof.
  run_M. destruct (remote (Product i)) as [|r doc]; [done |].
  by destruct (seriesOfDocument doc).
Qed.

(** A page of the concurrent pass: its result does not depend on the
    world, and it appends the merge of its rows, none when it fails. *)
Lemma loadPage_run originBooks page w :
  ∃ w',
    loadPage remote originBooks page w =
      (resultOf (loadPage remote [] page), w') ∧
    resultOf (loadPage remote [] page) ≠ Pending ∧
    books w' = books w ++ (mergeBook originBooks <$> fetchedRows remote page) ∧
    requests w' = requests w ++ [AvailableBookList page] ∧
    loading w' = loading w ∧
    topSeries w' = topSeries w ∧
    storage_topSeries w' = storage_topSeries w ∧
    (storage_books w = Some (books w) → storage_books w' = Some (books w')) ∧
    (pageFails remote page = true → fetchedRows remote page = []).
Proof.
  unfold pageFails, fetchedRows. run_M.
  destruct (remote (AvailableBookList page)) as [|redirected doc]; simpl.
  { eexists. split; [done |]. by rewrite app_nil_r. }
  unfold listingOfResponse. destruct redirected; simpl.
  { eexists. split; [done |]. by rewrite app_nil_r. }
  destruct (order_book doc ≫= mapM parseRow) as [rows|]; simpl.
  - eexists. split; [done |]. simpl. done.
  - eexists. split; [done |]. by rewrite app_nil_r.
Qed.
End Requests.

(** ** The records that need a series *)

Lemma bookNeedLoadSeries_snoc bs b :
  bookNeedLoadSeries (bs ++ [b]) =
  bookNeedLoadSeries bs ++
    match series b with None => [length bs] | Some _ => [] end.
Proof.
  unfold bookNeedLoadSeries. rewrite imap_app, omap_app. f_equal.
  simpl. rewrite Nat.add_0_r. by destruct (series b).
Qed.

Lemma bookNeedLoadSeries_spec bs position :
  position ∈ bookNeedLoadSeries bs ↔
  ∃ b, bs !! position = Some b ∧ series b = None.
Proof.
  unfold bookNeedLoadSeries. rewrite list_elem_of_omap. split.
  - intros ([i b] & Hin & Hb). apply elem_of_lookup_imap in Hin as (i' & b' & ? & ?).
    simplify_eq. exists b'. destruct (series b'); by simplify_eq.
  - intros (b & Hl & Hs). exists (position, b). rewrite Hs. split; [| done].
    apply elem_of_lookup_imap. eauto.
Qed.

(** The records behind the positions are the records without series, in
    the order of the record set. *)
Lemma bookNeedLoadSeries_books {A} (f : Book → A) (d : A) bs :
  (λ position, from_option f d (bs !! position)) <$> bookNeedLoadSeries bs =
  f <$> filter (λ b, series b = None) bs.
Proof.
  induction bs as [|b bs IH] using rev_ind; [done |].
  rewrite bookNeedLoadSeries_snoc, filter_app, !fmap_app, <- IH. f_equal.
  - apply Forall_fmap_ext, Forall_forall. intros position Hp.
    apply bookNeedLoadSeries_spec in Hp as (b' & Hl & _).
    by rewrite (lookup_app_l_Some _ _ _ _ Hl), Hl.
  - rewrite filter_singleton by exact bs.
    case_decide as Hd; destruct (series b); try done; simpl.
    by rewrite list_lookup_middle.
Qed.

(** ** The two concurrent passes *)

Section Stages.
Variable remote : Url → KyAnswer.

Lemma bind_singleton_fmap {A B} (f : A → B) (l : list A) :
  l ≫= (λ x, [f x]) = f <$> l.
Proof. induction l as [|x l IH]; [done |]. by rewrite bind_cons, fmap_cons, IH. Qed.

Lemma fmap_bind_comm {A B C} (f : B → C) (g : A → list B) (l : list A) :
  f <$> (l ≫= g) = l ≫= (λ x, f <$> g x).
Proof.
  induction l as [|x l IH]; [done |]. by rewrite !bind_cons, fmap_app, IH.
Qed.

(** The pass over the pages 2 .. pageCount. *)
Lemma pages_stage originBooks pages (message : nat → option Message) σ w1 :
  ∃ rs w2,
    parallelMap pages (loadPage remote originBooks) 5
      (λ done, set_loadingMessage (message done)) σ w1 = (Fulfilled rs, w2) ∧
    rs = (λ page, resultOf (loadPage remote [] page)) <$> pages ∧
    books w2 ≡ₚ
      books w1 ++ (pages ≫= λ page, mergeBook originBooks <$> fetchedRows remote page) ∧
    requests w2 ≡ₚ requests w1 ++ (AvailableBookList <$> pages) ∧
    loading w2 = loading w1 ∧
    topSeries w2 = topSeries w1 ∧
    storage_topSeries w2 = storage_topSeries w1 ∧
    (storage_books w1 = Some (books w1) → storage_books w2 = Some (books w2)).
Proof.
  destruct (parallelMap_completions (loadPage remote originBooks)
              (λ done, set_loadingMessage (message done)) pages 5 σ w1)
    as (rs & w2 & order & Hpm & Hperm & Hc & Hlen & Hres); [lia | |].
  { intros page w. destruct (loadPage_run remote originBooks page w)
      as (w' & -> & Hs & _). done. }
  assert (Hord : order.*2 ≡ₚ pages) by (by rewrite Hperm, imap_pair_snd).
  exists rs, w2. split; [done |]. split; [| split; [| split]].
  - eapply parallelMap_results with (I := λ _, True); [| | done].
    + intros page w _ _. by destruct (loadPage_run remote originBooks page w)
        as (w' & -> & _).
    + intros i page Hi. by apply Hres.
  - rewrite <- Hord.
    apply Permutation_refl'.
    eapply (completions_append (loadPage remote originBooks)
              (λ done, set_loadingMessage (message done)) (λ _, True) books);
      [done | done | | done | exact Hc | done].
    intros page w _ _. simpl.
    destruct (loadPage_run remote originBooks page w) as (w' & E & _ & Eb & _).
    by rewrite E.
  - rewrite <- bind_singleton_fmap, <- Hord.
    apply Permutation_refl'.
    eapply (completions_append (loadPage remote originBooks)
              (λ done, set_loadingMessage (message done)) (λ _, True) requests);
      [done | done | | done | exact Hc | done].
    intros page w _ _. simpl.
    destruct (loadPage_run remote originBooks page w) as (w' & E & _ & _ & Eb & _).
    by rewrite E.
  - pose (I := λ w, loading w = loading w1 ∧ topSeries w = topSeries w1 ∧
                    storage_topSeries w = storage_topSeries w1 ∧
                    (storage_books w1 = Some (books w1) →
                     storage_books w = Some (books w))).
    edestruct (completions_post (loadPage remote originBooks)
                 (λ done, set_loadingMessage (message done)) I (λ _ _, True) order)
      as [HI _]; [| | | | | exact Hc | | exact HI]; try done.
    intros page w _ (H1 & H2 & H3 & H4).
    destruct (loadPage_run remote originBooks page w)
      as (w' & E & _ & _ & _ & E1 & E2 & E3 & Hst & _).
    rewrite E. unfold I. simpl. rewrite E1, E2, E3.
    repeat split; try done. intros Hw1. by apply Hst, H4.
Qed.

Lemma seriesOutcome_eq b :
  seriesOutcome remote b =
  match resultOf (loadSeries remote (id b)) with
  | Fulfilled _ => Fulfilled ()
  | Rejected e => Rejected e
  | Pending => Pending
  end.
Proof.
  unfold seriesOutcome. run_M. destruct (remote (Product (id b))) as [|r doc]; [done |].
  by destruct (seriesOfDocument doc).
Qed.

Lemma loadBookSeries_run position w b :
  books w !! position = Some b →
  ∃ w',
    loadBookSeries remote position w = (seriesOutcome remote b, w') ∧
    books w' = match resultOf (loadSeries remote (id b)) with
               | Fulfilled loaded => alter (withSeries loaded) position (books w)
               | _ => books w
               end ∧
    requests w' = requests w ++ [Product (id b)] ∧
    loading w' = loading w ∧
    topSeries w' = topSeries w ∧
    storage_topSeries w' = storage_topSeries w ∧
    (storage_books w = Some (books w) → storage_books w' = Some (books w')).
Proof.
  intros Hb. rewrite seriesOutcome_eq. unfold loadBookSeries. rewrite Hb.
  run_M. destruct (remote (Product (id b))) as [|r doc]; simpl; [by eexists |].
  destruct (seriesOfDocument doc); simpl; by eexists.
Qed.

Lemma loadBookSeries_settles position w :
  (loadBookSeries remote position w).1 ≠ Pending.
Proof.
  destruct (books w !! position) as [b|] eqn:Hb.
  - destruct (loadBookSeries_run position w b Hb) as (w' & -> & _).
    rewrite seriesOutcome_eq. pose proof (loadSeries_settles remote (id b)).
    by destruct (resultOf (loadSeries remote (id b))).
  - unfold loadBookSeries. by rewrite Hb.
Qed.

Lemma enrich_eq b :
  enrich remote b =
  match series b, resultOf (loadSeries remote (id b)) with
  | None, Fulfilled loaded => withSeries loaded b
  | _, _ => b
  end.
Proof. done. Qed.

Lemma enrich_id b : id (enrich remote b) = id b.
Proof.
  rewrite enrich_eq. destruct (series b); [done |].
  by destruct (resultOf (loadSeries remote (id b))).
Qed.

Section Enrichment.
Variable w2 : World.

Local Abbreviation enriching := (enriching remote w2).

Lemma loadBookSeries_step w position b :
  enriching w →
  books w2 !! position = Some b →
  series b = None →
  ∃ w',
    loadBookSeries remote position w = (seriesOutcome remote b, w') ∧
    books w' !! position = Some (enrich remote b) ∧
    (∀ i, i ≠ position → books w' !! i = books w !! i) ∧
    requests w' = requests w ++ [Product (id b)] ∧
    enriching w'.
Proof.
  intros (Hlen & Hbooks & Hl & Ht & Hst & Hsb) Hb Hs.
  assert (∃ b0, books w !! position = Some b0 ∧ id b0 = id b ∧
                name b0 = name b ∧ favorite b0 = favorite b ∧
                bookmark b0 = bookmark b ∧
                (b0 = b ∨ b0 = enrich remote b))
    as (b0 & Hb0 & Hid & Hname & Hfav & Hbm & Hor).
  { destruct (Hbooks position b Hb) as [H | [_ H]]; eexists; (split; [exact H |]).
    - eauto 10.
    - rewrite enrich_eq, Hs.
      destruct (resultOf (loadSeries remote (id b))); simpl; eauto 10. }
  destruct (loadBookSeries_run position w b0 Hb0)
    as (w' & Hrun & Hbs & Hreq & Hl' & Ht' & Hst' & Hsb').
  rewrite Hid in Hbs, Hreq.
  assert (Hout : seriesOutcome remote b0 = seriesOutcome remote b)
    by (by rewrite !seriesOutcome_eq, Hid).
  assert (Hnew : books w' !! position = Some (enrich remote b)).
  { rewrite Hbs. rewrite enrich_eq, Hs in Hor |- *.
    destruct (resultOf (loadSeries remote (id b))) as [loaded| |].
    - rewrite list_lookup_alter_eq, Hb0. simpl. f_equal. unfold withSeries.
      by rewrite Hid, Hname, Hfav, Hbm.
    - by destruct Hor as [-> | ->].
    - by destruct Hor as [-> | ->]. }
  assert (Hother : ∀ i, i ≠ position → books w' !! i = books w !! i).
  { intros i Hi. rewrite Hbs.
    destruct (resultOf (loadSeries remote (id b))); [| done | done].
    by rewrite list_lookup_alter_ne. }
  exists w'. rewrite Hrun, Hout. repeat split; try done; try congruence.
  - rewrite Hbs, <- Hlen.
    destruct (resultOf (loadSeries remote (id b))); [| done | done].
    apply length_alter.
  - intros i b' Hb'. destruct (decide (i = position)) as [-> | Hi].
    + right. by simplify_eq.
    + rewrite Hother by done. by apply Hbooks.
  - intros H. by apply Hsb', Hsb.
Qed.

Lemma series_stage_in (message : nat → option Message) σ :
  ∃ rs w3,
    parallelMap (bookNeedLoadSeries (books w2)) (loadBookSeries remote) 5
      (λ done, set_loadingMessage (message done)) σ w2 = (Fulfilled rs, w3) ∧
    rs = seriesOutcome remote <$> filter (λ b, series b = None) (books w2) ∧
    books w3 = enrich remote <$> books w2 ∧
    requests w3 ≡ₚ
      requests w2 ++
      ((λ b, Product (id b)) <$> filter (λ b, series b = None) (books w2)) ∧
    enriching w3.
Proof.
  set (need := bookNeedLoadSeries (books w2)).
  set (prog := λ done, set_loadingMessage (message done)).
  destruct (parallelMap_completions (loadBookSeries remote) prog need 5 σ w2)
    as (rs & w3 & order & Hpm & Hperm & Hc & Hlen & Hres);
    [lia | apply loadBookSeries_settles |].
  assert (Hord : order.*2 ≡ₚ need) by (by rewrite Hperm, imap_pair_snd).
  assert (Hin : ∀ x, x ∈ order.*2 → x ∈ need) by (intros x; by rewrite Hord).
  assert (Hneed : ∀ position, position ∈ need →
            ∃ b, books w2 !! position = Some b ∧ series b = None)
    by (intros position; apply bookNeedLoadSeries_spec).
  assert (H0 : enriching w2) by (repeat split; eauto).
  assert (HI : ∀ x w, x ∈ need → enriching w →
                      enriching (loadBookSeries remote x w).2).
  { intros x w Hx Hw. destruct (Hneed x Hx) as (b & Hb & Hs).
    destruct (loadBookSeries_step w x b Hw Hb Hs) as (w' & -> & _ & _ & _ & Hw').
    done. }
  assert (HIp : ∀ d w, enriching w → enriching (prog d w)) by done.
  assert (Hpost : enriching w3 ∧
            ∀ x, x ∈ need →
                 ∀ b, books w2 !! x = Some b → books w3 !! x = Some (enrich remote b)).
  { edestruct (completions_post (loadBookSeries remote) prog enriching
                 (λ x w, ∀ b, books w2 !! x = Some b →
                              books w !! x = Some (enrich remote b)) order)
      as [Hw3 HQ]; [| | | | | exact Hc | exact H0 |].
    - intros x w Hx. apply HI. by rewrite <- Hord.
    - done.
    - intros x w Hx%Hin Hw b Hb. destruct (Hneed x Hx) as (b' & Hb' & Hs).
      simplify_eq.
      by destruct (loadBookSeries_step w x b Hw Hb Hs) as (w' & -> & ? & _).
    - intros x y w Hy%Hin Hw HQ b Hb. destruct (Hneed y Hy) as (b' & Hb' & Hs).
      destruct (loadBookSeries_step w y b' Hw Hb' Hs) as (w' & -> & Hy' & Ho & _).
      simpl. destruct (decide (x = y)) as [-> | Hne].
      + by simplify_eq.
      + rewrite Ho by done. by apply HQ.
    - done.
    - split; [done |]. intros x Hx. apply HQ. left. by rewrite Hord. }
  destruct Hpost as [Hw3 HQ].
  exists rs, w3. split; [done |]. split; [| split; [| split; [| done]]].
  - rewrite <- (bookNeedLoadSeries_books (seriesOutcome remote) (Fulfilled ())).
    eapply parallelMap_results with (I := enriching); [| | done].
    + intros x w Hx Hw. destruct (Hneed x Hx) as (b & Hb & Hs). rewrite Hb. simpl.
      by destruct (loadBookSeries_step w x b Hw Hb Hs) as (w' & -> & _).
    + intros i x Hi. by apply Hres.
  - destruct Hw3 as (Hlen3 & Hbooks & _).
    apply list_eq. intros i. rewrite list_lookup_fmap.
    destruct (books w2 !! i) as [b|] eqn:Hb; simpl.
    + destruct (series b) eqn:Hs.
      * destruct (Hbooks i b Hb) as [-> | [? _]]; [| congruence].
        by rewrite enrich_eq, Hs.
      * apply HQ; [| done]. apply bookNeedLoadSeries_spec. eauto.
    + apply lookup_ge_None. rewrite Hlen3. by apply lookup_ge_None.
  - rewrite <- (bookNeedLoadSeries_books (λ b, Product (id b)) (Product Js.NaN)).
    fold need. rewrite <- bind_singleton_fmap, <- Hord.
    apply Permutation_refl'.
    eapply (completions_append (loadBookSeries remote) prog enriching requests);
      [| exact HIp | | done | exact Hc | exact H0].
    + intros x w Hx. apply HI. by rewrite <- Hord.
    + intros x w Hx%Hin Hw. destruct (Hneed x Hx) as (b & Hb & Hs). rewrite Hb.
      destruct (loadBookSeries_step w x b Hw Hb Hs) as (w' & E & _ & _ & Er & _).
      by rewrite E.
Qed.
End Enrichment.
End Stages.

(** ** The run *)

Section Run.
Variable remote : Url → KyAnswer.
Variables σpages σseries : schedule.

Lemma reloadCollection_rejected w e :
  resultOf (loadAvailableBookList remote 1) = Rejected e →
  reloadCollection remote σpages σseries w = (Rejected e, afterFirstRequest w).
Proof.
  intros H. unfold reloadCollection, mbind, M_bind, update, read. simpl.
  by rewrite loadAvailableBookList_run, H.
Qed.

Lemma reloadCollection_error w listing error :
  resultOf (loadAvailableBookList remote 1) = Fulfilled listing →
  listing_error listing = Some error →
  reloadCollection remote σpages σseries w =
  (Fulfilled (),
   set_loadingMessage
     (Some match error with
           | NO_LOGIN => noLoginMessage
           | PARSING_ERROR => parsingErrorMessage
           end)
     (afterFirstRequest w)).
Proof.
  intros H He. unfold reloadCollection, mbind, M_bind, update, read. simpl.
  rewrite loadAvailableBookList_run, H, He. by destruct error.
Qed.

Lemma resultOf_listing page listing :
  resultOf (loadAvailableBookList remote page) = Fulfilled listing →
  ∃ redirected doc, listing = listingOfResponse redirected doc.
Proof.
  run_M. destruct (remote (AvailableBookList page)) as [|r d]; [done |].
  intros [= <-]. eauto.
Qed.

Lemma reloadCollection_no_pagination w listing doc :
  resultOf (loadAvailableBookList remote 1) = Fulfilled listing →
  listing_error listing = None →
  listing_doc listing = Some doc →
  pageCountText doc = None →
  reloadCollection remote σpages σseries w =
  (Rejected TypeError, afterFirstRequest w).
Proof.
  intros H He Hd Ht. unfold reloadCollection, mbind, M_bind, update, read. simpl.
  rewrite loadAvailableBookList_run, H, He, Hd. simpl.
  unfold parsePageCount, mbind, M_bind. by rewrite Ht.
Qed.

Lemma pageCountOf_Some pageCount :
  pageCountOf remote = Some pageCount →
  ∃ doc rows text,
    resultOf (loadAvailableBookList remote 1) =
      Fulfilled {| listing_doc := Some doc; listing_books := Some rows;
                   listing_error := None |} ∧
    pageCountText doc = Some text ∧
    pageCount = Js.parseInt text ∧
    fetchedRows remote 1 = rows.
Proof.
  unfold pageCountOf, fetchedRows.
  destruct (resultOf (loadAvailableBookList remote 1)) as [l| |] eqn:H; try done.
  destruct (resultOf_listing _ _ H) as (r & d & ->).
  destruct (listing_error (listingOfResponse r d)) eqn:He; [done |].
  destruct (listingOfResponse_ok _ _ He) as [rows Hl]. rewrite Hl in *. simpl.
  destruct (pageCountText d) as [text|] eqn:Et; [| done]. simpl. intros [= <-].
  by exists d, rows, text.
Qed.

Lemma existsb_pageFails pages :
  existsb isFailure ((λ page, resultOf (loadPage remote [] page)) <$> pages) = true ↔
  ∃ page, page ∈ pages ∧ pageFails remote page = true.
Proof.
  rewrite existsb_exists. split.
  - intros (r & Hin & Hr). apply list_elem_of_In, list_elem_of_fmap in Hin
      as (page & -> & Hp). eauto.
  - intros (page & Hin & Hr). eexists. split; [| exact Hr].
    apply list_elem_of_In, list_elem_of_fmap. eauto.
Qed.

(** Past page 1: the listing pass, then either the partial failure or
    the enrichment pass. *)
Lemma reloadCollection_listed w pageCount :
  pageCountOf remote = Some pageCount →
  ∃ w2,
    books w2 ≡ₚ mergeBook (books w) <$> listedBooks remote ∧
    requests w2 ≡ₚ
      requests w ++ (AvailableBookList <$> 1 :: pagesNeedLoad pageCount) ∧
    loading w2 = true ∧
    topSeries w2 = topSeries w ∧
    storage_topSeries w2 = storage_topSeries w ∧
    storage_books w2 = Some (books w2) ∧
    ((∃ page, page ∈ pagesNeedLoad pageCount ∧ pageFails remote page = true) →
     reloadCollection remote σpages σseries w =
     (Fulfilled (), set_loadingMessage (Some partialFailureMessage) w2)) ∧
    ((∀ page, page ∈ pagesNeedLoad pageCount → pageFails remote page = false) →
     ∃ rs w3 message,
       parallelMap (bookNeedLoadSeries (books w2)) (loadBookSeries remote) 5
         (λ done, set_loadingMessage (message done)) σseries w2
         = (Fulfilled rs, w3) ∧
       rs = seriesOutcome remote <$> filter (λ b, series b = None) (books w2) ∧
       books w3 = enrich remote <$> books w2 ∧
       requests w3 ≡ₚ
         requests w2 ++
         ((λ b, Product (id b)) <$> filter (λ b, series b = None) (books w2)) ∧
       enriching remote w2 w3 ∧
       reloadCollection remote σpages σseries w =
       (Fulfilled (), set_loadingMessage None (set_loading false w3))).
Proof.
  intros Hpc.
  destruct (pageCountOf_Some _ Hpc) as (doc & rows & text & H & Ht & -> & Hrows).
  set (pageCount := Js.parseInt text) in *.
  set (w1 := firstPageRecorded (books w) rows pageCount (afterFirstRequest w)).
  destruct (pages_stage remote (books w) (pagesNeedLoad pageCount)
              (λ done, Some (booksLoadingMessage (pretty (done + 1)%nat) pageCount))
              σpages w1)
    as (rs & w2 & Hpm & Hrs & Hbooks & Hreq & Hl & Ht2 & Hst & Hsb).
  assert (Hrun : reloadCollection remote σpages σseries w =
            if existsb isFailure rs
            then (Fulfilled (), set_loadingMessage (Some partialFailureMessage) w2)
            else
              match parallelMap (bookNeedLoadSeries (books w2)) (loadBookSeries remote) 5
                      (λ done, set_loadingMessage
                         (Some (seriesLoadingMessage done
                                  (length (bookNeedLoadSeries (books w2))))))
                      σseries w2 with
              | (Fulfilled _, w3) =>
                  (Fulfilled (), set_loadingMessage None (set_loading false w3))
              | (Rejected e, w3) => (Rejected e, w3)
              | (Pending, w3) => (Pending, w3)
              end).
  { unfold reloadCollection, mbind, M_bind, update, read. simpl.
    rewrite loadAvailableBookList_run, H. simpl.
    unfold parsePageCount, mbind, M_bind. rewrite Ht. simpl.
    fold pageCount. unfold recordBookList, saveBooks, mbind, M_bind, update. simpl.
    change (parallelMap (pagesNeedLoad pageCount) (loadPage remote (books w)) 5 _ σpages _)
      with (parallelMap (pagesNeedLoad pageCount) (loadPage remote (books w)) 5
              (λ done, set_loadingMessage
                 (Some (booksLoadingMessage (pretty (done + 1)%nat) pageCount)))
              σpages w1).
    rewrite Hpm. destruct (existsb isFailure rs); [done |].
    by destruct (parallelMap _ _ _ _ _ _) as [[]]. }
  exists w2. split; [| split; [| split; [| split; [| split; [| split; [| split]]]]]].
  - rewrite Hbooks. unfold listedBooks. rewrite Hpc, bind_cons, fmap_app, Hrows.
    apply Permutation_app; [done |]. apply Permutation_refl'.
    symmetry. apply fmap_bind_comm.
  - rewrite Hreq. simpl. by rewrite <- app_assoc.
  - by rewrite Hl.
  - by rewrite Ht2.
  - by rewrite Hst.
  - by apply Hsb.
  - intros Hfail. rewrite Hrun, Hrs.
    by rewrite (proj2 (existsb_pageFails (pagesNeedLoad pageCount)) Hfail).
  - intros Hok.
    destruct (series_stage_in remote w2
                (λ done, Some (seriesLoadingMessage done
                                 (length (bookNeedLoadSeries (books w2)))))
                σseries)
      as (rs' & w3 & Hpm' & Hrs' & Hbooks' & Hreq' & Hw3).
    exists rs', w3, (λ done, Some (seriesLoadingMessage done
                                    (length (bookNeedLoadSeries (books w2))))).
    repeat (split; [done |]).
    rewrite Hrun, Hpm'.
    destruct (existsb isFailure rs) eqn:Hex; [| done].
    rewrite Hrs in Hex. apply existsb_pageFails in Hex as (page & Hin & Hf).
    by rewrite Hok in Hf.
Qed.
End Run.

Section RunFacts.
Variable remote : Url → KyAnswer.
Variables σpages σseries : schedule.

(** Page 1 did not give a page count: the run stops in the world of the
    first request, with at most a message added. *)
Lemma reloadCollection_not_listed w :
  pageCountOf remote = None →
  ∃ r w',
    reloadCollection remote σpages σseries w = (r, w') ∧
    books w' = [] ∧
    loading w' = true ∧
    storage_books w' = storage_books w ∧
    requests w' = requests w ++ [AvailableBookList 1].
Proof.
  intros Hpc. unfold pageCountOf in Hpc.
  destruct (resultOf (loadAvailableBookList remote 1)) as [l|e|] eqn:H.
  - destruct (listing_error l) as [error|] eqn:He.
    + rewrite (reloadCollection_error _ _ _ _ _ _ H He). by eexists _, _.
    + destruct (resultOf_listing _ _ _ H) as (r & d & ->).
      destruct (listingOfResponse_ok _ _ He) as [rows Hl]. rewrite Hl in *.
      simpl in Hpc. destruct (pageCountText d) eqn:Ht; [done |].
      rewrite (reloadCollection_no_pagination _ _ _ _ _ d H); by eauto 10.
  - rewrite (reloadCollection_rejected _ _ _ _ _ H). by eexists _, _.
  - exfalso. revert H. run_M. by destruct (remote (AvailableBookList 1)).
Qed.

Lemma pages_fail_dec (pages : list Z) :
  (∃ page, page ∈ pages ∧ pageFails remote page = true) ∨
  (∀ page, page ∈ pages → pageFails remote page = false).
Proof.
  induction pages as [|p pages [(page & Hin & Hf) | IH]].
  - right. intros page Hin. by apply elem_of_nil in Hin.
  - left. exists page. split; [by right | done].
  - destruct (pageFails remote p) eqn:Hp.
    + left. exists p. split; [by left | done].
    + right. intros page [-> | Hin]%elem_of_cons; [done | by apply IH].
Qed.

Lemma mergeBook_ids originBooks (rows : list FetchedBook) :
  id <$> (mergeBook originBooks <$> rows) = fetched_id <$> rows.
Proof. rewrite <- list_fmap_compose. by apply list_fmap_ext. Qed.

Lemma enrich_ids (bs : list Book) : id <$> (enrich remote <$> bs) = id <$> bs.
Proof.
  rewrite <- list_fmap_compose. apply list_fmap_ext. intros _ b _.
  apply enrich_id.
Qed.

(** The ids of the record set a run leaves are those of the rows it
    fetched. *)
Lemma reloadCollection_ids_listed w :
  id <$> books (reloadCollection remote σpages σseries w).2 ≡ₚ
  fetched_id <$> listedBooks remote.
Proof.
  destruct (pageCountOf remote) as [pageCount|] eqn:Hpc.
  - destruct (reloadCollection_listed remote σpages σseries w pageCount Hpc)
      as (w2 & Hbooks & _ & _ & _ & _ & _ & Hfail & Hok).
    rewrite <- (mergeBook_ids (books w)), <- Hbooks.
    destruct (pages_fail_dec (pagesNeedLoad pageCount)) as [Hf | Hs].
    + by rewrite (Hfail Hf).
    + destruct (Hok Hs) as (rs & w3 & message & _ & _ & Hb3 & _ & _ & ->).
      simpl. by rewrite Hb3, enrich_ids.
  - destruct (reloadCollection_not_listed w Hpc) as (r & w' & -> & Hb & _).
    unfold listedBooks. simpl. by rewrite Hpc, Hb.
Qed.
End RunFacts.

(** * The claims *)

(** C2. For every list of inputs, every operation that settles, every
    limit of at least 1 and every completion order, [parallelMap] is
    fulfilled with exactly one result per input, in the order of the
    inputs: the slot of an input holds what its own operation settled to,
    a rejection being recorded there as that input's failed result. No
    operation is cancelled or skipped: the store is the one obtained by
    completing every input exactly once, in some order. *)
Theorem parallelMap_keeps_order_and_runs_all {Store T R}
    (inputs : list T) (op : T → Store → Result R * Store) (limit : nat)
    (onProgress : nat → Store → Store) (σ : schedule) (s : Store) :
  (1 ≤ limit)%nat →
  (∀ x s, (op x s).1 ≠ Pending) →
  ∃ rs s' order,
    parallelMap inputs op limit onProgress σ s = (Fulfilled rs, s') ∧
    length rs = length inputs ∧
    (∀ i x, inputs !! i = Some x → ∃ s0, rs !! i = Some (op x s0).1) ∧
    (∀ f, (∀ x s, (op x s).1 = f x) → rs = f <$> inputs) ∧
    order ≡ₚ imap pair inputs ∧
    completions op onProgress order (replicate (length inputs) None) 0 s
      = (Some <$> rs, length inputs, s').
Proof.
  intros Hlimit Hop.
  destruct (parallelMap_completions op onProgress inputs limit σ s Hlimit Hop)
    as (rs & s' & order & Hpm & Hperm & Hc & Hlen & Hres).
  assert (Hslot : ∀ i x, inputs !! i = Some x →
            ∃ s0, (λ _, True) s0 ∧ rs !! i = Some (op x s0).1)
    by (by apply Hres).
  exists rs, s', order. repeat (split; [done |]). split; [| split; [| done]].
  - intros i x Hi. destruct (Hslot i x Hi) as (s0 & _ & ?). eauto.
  - intros f Hf. apply (parallelMap_results op inputs (λ _, True)); auto.
Qed.

Lemma parallelMap_keeps_order_and_runs_all_witness :
  ∃ rs s' order,
    parallelMap [1; 2; 3]%nat Sample.tenfold 2 (λ _ log, log) Sample.secondFirst []
      = (Fulfilled rs, s') ∧
    length rs = length [1; 2; 3]%nat ∧
    (∀ i x, [1; 2; 3]%nat !! i = Some x →
            ∃ s0, rs !! i = Some (Sample.tenfold x s0).1) ∧
    (∀ f, (∀ x s, (Sample.tenfold x s).1 = f x) → rs = f <$> [1; 2; 3]%nat) ∧
    order ≡ₚ imap pair [1; 2; 3]%nat ∧
    completions Sample.tenfold (λ _ log, log) order
      (replicate (length [1; 2; 3]%nat) None) 0 []
      = (Some <$> rs, length [1; 2; 3]%nat, s').
Proof.
  apply (parallelMap_keeps_order_and_runs_all [1; 2; 3]%nat Sample.tenfold 2).
  - lia.
  - intros x s. unfold Sample.tenfold. simpl. by destruct (Nat.eqb x 2).
Defined.

(** The completion order of the sample is 2, 3, 1 and the output is in
    input order all the same, with the rejection of 2 in its slot. *)
Example parallelMap_sample :
  parallelMap [1; 2; 3]%nat Sample.tenfold 2 (λ _ log, log) Sample.secondFirst [] =
  (Fulfilled [Fulfilled 10%nat; Rejected HTTPError; Fulfilled 30%nat], [2; 3; 1]%nat).
Proof. reflexivity. Qed.

(** C10. A call of [switchTopSeries] adds the name when it is absent and
    removes every occurrence of it when it is present, so after two calls
    in a row the membership of [topSeries] is what it was; the stored
    entry follows the state. *)
Theorem switchTopSeries_twice (name : string) (w : World) :
  let w1 := (switchTopSeries name w).2 in
  let w2 := (switchTopSeries name w1).2 in
  ((name ∉ topSeries w) → topSeries w1 = topSeries w ++ [name]) ∧
  (name ∈ topSeries w →
   (name ∉ topSeries w1) ∧
   ∀ s, s ≠ name → s ∈ topSeries w1 ↔ s ∈ topSeries w) ∧
  (∀ s, s ∈ topSeries w2 ↔ s ∈ topSeries w) ∧
  ((name ∉ topSeries w) → topSeries w2 = topSeries w) ∧
  storage_topSeries w2 = Some (topSeries w2).
Proof.
  assert (Hinc : ∀ l : list string,
            existsb (String.eqb name) l = true ↔ name ∈ l).
  { intros l. rewrite existsb_exists. split.
    - intros (s & Hin & ->%String.eqb_eq). by apply list_elem_of_In.
    - intros Hin. exists name. split; [by apply list_elem_of_In | apply String.eqb_refl]. }
  assert (Hone : ∀ w0,
            topSeries (switchTopSeries name w0).2 =
              (if existsb (String.eqb name) (topSeries w0)
               then filter (λ s, s ≠ name) (topSeries w0)
               else topSeries w0 ++ [name]) ∧
            storage_topSeries (switchTopSeries name w0).2 =
              Some (topSeries (switchTopSeries name w0).2)).
  { intros w0. unfold switchTopSeries, mbind, M_bind, read, update. simpl.
    by destruct (existsb (String.eqb name) (topSeries w0)). }
  intros w1 w2.
  destruct (Hone w) as [H1 _], (Hone w1) as [H2 Hst]. fold w1 in H1. fold w2 in H2, Hst.
  destruct (existsb (String.eqb name) (topSeries w)) eqn:Hin.
  - apply Hinc in Hin.
    assert (Hout : name ∉ topSeries w1).
    { rewrite H1, list_elem_of_filter. by intros [? _]. }
    assert (Hnot : existsb (String.eqb name) (topSeries w1) = false).
    { destruct (existsb (String.eqb name) (topSeries w1)) eqn:E; [| done].
      by apply Hinc in E. }
    rewrite Hnot in H2.
    split; [done |]. split; [| split; [| split; [done | done]]].
    + intros _. split; [done |]. intros s Hs. rewrite H1, list_elem_of_filter.
      split; [by intros [_ ?] | done].
    + intros s.
      rewrite H2, H1, elem_of_app, list_elem_of_filter, list_elem_of_singleton.
      split; [by intros [[_ ?] | ->] |].
      intros Hs. destruct (decide (s = name)) as [-> | Hne]; [by right | by left].
  - assert (Hout : name ∉ topSeries w).
    { intros E%Hinc. congruence. }
    assert (Hin1 : existsb (String.eqb name) (topSeries w1) = true).
    { apply Hinc. rewrite H1, elem_of_app, list_elem_of_singleton. by right. }
    rewrite Hin1 in H2.
    assert (Hback : topSeries w2 = topSeries w).
    { rewrite H2, H1, filter_app, filter_singleton by exact [].
      rewrite decide_False by (by intros ?). rewrite app_nil_r.
      clear -Hout. induction (topSeries w) as [|s l IH]; [done |].
      apply not_elem_of_cons in Hout as [Hne Hl].
      rewrite filter_cons_True by done. by rewrite IH. }
    split; [done |]. split; [done |]. split; [| done].
    intros s. by rewrite Hback.
Qed.

Lemma find_previousOf originBooks i :
  match find (λ old, Js.strict_eq (id old) i) originBooks with
  | Some old => previousOf originBooks i old
  | None => ∀ old, old ∈ originBooks → Js.strict_eq (id old) i = false
  end.
Proof.
  induction originBooks as [|b bs IH]; simpl.
  - intros old Hin. by apply elem_of_nil in Hin.
  - destruct (Js.strict_eq (id b) i) eqn:Hb.
    + by exists [], bs.
    + destruct (find (λ old, Js.strict_eq (id old) i) bs) as [old|].
      * destruct IH as (before & after & -> & Hold & Hbefore).
        exists (b :: before), after. split; [done |]. split; [done |].
        by constructor.
      * intros old [-> | Hin]%elem_of_cons; [done | by apply IH].
Qed.

Lemma previousOf_unique originBooks i old old' :
  previousOf originBooks i old → previousOf originBooks i old' → old = old'.
Proof.
  intros (l1 & r1 & E1 & H1 & F1) (l2 & r2 & E2 & H2 & F2). subst originBooks.
  revert l2 E2 F2. induction l1 as [|b l1 IH]; intros [|b' l2] E2 F2; simpl in *.
  - congruence.
  - simplify_eq. apply Forall_cons in F2 as [F2 _]. congruence.
  - simplify_eq. apply Forall_cons in F1 as [F1 _]. congruence.
  - simplify_eq. apply Forall_cons in F1 as [_ F1], F2 as [_ F2]. eauto.
Qed.

(** C3. [recordBookList] appends one merged record per fetched row, in
    order, and stores the record set. The merged record has the id and the
    name of the row; its series, favorite and bookmark are those of the
    previous entity with the same id when there is one (a previous
    favorite stays a favorite under the new name), and null, false and
    false when there is none. *)
Theorem recordBookList_merge (originBooks : list Book) (fetched : list FetchedBook)
    (w : World) :
  ∃ merged w',
    recordBookList originBooks fetched w = (Fulfilled (), w') ∧
    books w' = books w ++ merged ∧
    storage_books w' = Some (books w') ∧
    Forall2
      (λ row b,
         id b = fetched_id row ∧
         name b = fetched_name row ∧
         (∀ old, previousOf originBooks (fetched_id row) old →
                 series b = series old ∧
                 favorite b = favorite old ∧
                 bookmark b = bookmark old) ∧
         ((∀ old, old ∈ originBooks →
                  Js.strict_eq (id old) (fetched_id row) = false) →
          series b = None ∧ favorite b = false ∧ bookmark b = false))
      fetched merged.
Proof.
  exists (mergeBook originBooks <$> fetched). eexists. split; [done |]. simpl.
  split; [done |]. split; [done |].
  apply Forall2_fmap_r, Forall_Forall2_diag, Forall_forall. intros row _.
  split; [done |]. split; [done |].
  pose proof (find_previousOf originBooks (fetched_id row)) as Hfind.
  unfold mergeBook. simpl.
  destruct (find (λ old, Js.strict_eq (id old) (fetched_id row)) originBooks)
    as [found|]; simpl.
  - split.
    + intros old Hold. by rewrite (previousOf_unique _ _ _ _ Hold Hfind).
    + intros Hnone. destruct Hfind as (l1 & l2 & -> & Hid & _).
      rewrite Hnone in Hid; [done |]. rewrite elem_of_app, elem_of_cons. auto.
  - split; [| done]. intros old (l1 & l2 & -> & Hid & _).
    rewrite Hfind in Hid; [done |]. rewrite elem_of_app, elem_of_cons. auto.
Qed.

(** The scenario of the specification: a previous favorite, fetched again
    under a new name. *)
Example recordBookList_keeps_favorite :
  books (recordBookList (books Sample.previous)
           [ {| fetched_id := Js.Num 10; fetched_name := "new title" |} ]
           (set_books (λ _, []) Sample.previous)).2 =
  [ {| id := Js.Num 10; name := "new title"; series := None;
       favorite := true; bookmark := false |} ].
Proof. reflexivity. Qed.

(** C1 as stated fails: when page 1 reports NO_LOGIN the run does not
    leave [state.books] as it was. *)
Lemma reloadCollection_no_login_loses_books :
  ¬ (∀ remote σpages σseries w listing,
       resultOf (loadAvailableBookList remote 1) = Fulfilled listing →
       listing_error listing = Some NO_LOGIN →
       let w' := (reloadCollection remote σpages σseries w).2 in
       loadingMessage w' = Some noLoginMessage ∧ books w' = books w).
Proof.
  intros H.
  destruct (H Sample.notLoggedIn Sample.inOrder Sample.inOrder Sample.previous
              _ eq_refl eq_refl) as [_ Hbooks].
  vm_compute in Hbooks. discriminate.
Qed.

(** C1, amended. When page 1 reports NO_LOGIN the run returns with the
    not-logged-in message and its error flag; the loading flag stays set;
    [state.books] is empty, as the run emptied it before the request; the
    stored record set and the labels are untouched; no other request was
    made. *)
Theorem reloadCollection_no_login (remote : Url → KyAnswer)
    (σpages σseries : schedule) (w : World) (listing : Listing) :
  resultOf (loadAvailableBookList remote 1) = Fulfilled listing →
  listing_error listing = Some NO_LOGIN →
  ∃ w',
    reloadCollection remote σpages σseries w = (Fulfilled (), w') ∧
    loadingMessage w' = Some noLoginMessage ∧
    loading w' = true ∧
    books w' = [] ∧
    storage_books w' = storage_books w ∧
    topSeries w' = topSeries w ∧
    storage_topSeries w' = storage_topSeries w ∧
    requests w' = requests w ++ [AvailableBookList 1].
Proof.
  intros H He. rewrite (reloadCollection_error _ _ _ _ _ _ H He).
  by eexists.
Qed.

Lemma reloadCollection_no_login_witness :
  ∃ w',
    reloadCollection Sample.notLoggedIn Sample.inOrder Sample.inOrder Sample.previous
      = (Fulfilled (), w') ∧
    loadingMessage w' = Some noLoginMessage ∧
    loading w' = true ∧
    books w' = [] ∧
    storage_books w' = storage_books Sample.previous ∧
    topSeries w' = topSeries Sample.previous ∧
    storage_topSeries w' = storage_topSeries Sample.previous ∧
    requests w' = requests Sample.previous ++ [AvailableBookList 1].
Proof.
  apply (reloadCollection_no_login Sample.notLoggedIn Sample.inOrder Sample.inOrder
           Sample.previous
           {| listing_doc := None; listing_books := None;
              listing_error := Some NO_LOGIN |}).
  - reflexivity.
  - reflexivity.
Defined.

(** C7, at the failing input. Page 1 is retrieved with its rows but
    without a pagination bar: [parsePageCount] raises a TypeError that
    nothing catches, so the run rejects; no message is set (it is still
    absent, and not the unparsable-page message), the loading flag stays
    set, and no other page was requested. *)
Theorem reloadCollection_no_pagination_rejects :
  ∃ w',
    reloadCollection Sample.noPagination Sample.inOrder Sample.inOrder Sample.previous
      = (Rejected TypeError, w') ∧
    loadingMessage w' = None ∧
    loadingMessage w' ≠ Some parsingErrorMessage ∧
    loading w' = true ∧
    books w' = [] ∧
    requests w' = [AvailableBookList 1].
Proof. eexists. split; [vm_compute; reflexivity |]. by repeat split. Qed.

(** A pagination bar without a number is no failure either: the page
    count is NaN, no other page is requested and the run goes on to the
    enrichment pass. *)
Example reloadCollection_unreadable_page_count :
  let run := reloadCollection Sample.unreadablePageCount Sample.inOrder
               Sample.inOrder Sample.previous in
  pageCountOf Sample.unreadablePageCount = Some Js.NaN ∧
  run.1 = Fulfilled () ∧
  loading run.2 = false ∧
  loadingMessage run.2 = None ∧
  requests run.2 = [AvailableBookList 1; Product (Js.Num 10)].
Proof. by vm_compute. Qed.

(** The part of C7 that holds: a page 1 without its [#order_book] rows
    ends the run with the unparsable-page message, and no other page is
    requested. *)
Lemma reloadCollection_parsing_error (remote : Url → KyAnswer)
    (σpages σseries : schedule) (w : World) (listing : Listing) :
  resultOf (loadAvailableBookList remote 1) = Fulfilled listing →
  listing_error listing = Some PARSING_ERROR →
  ∃ w',
    reloadCollection remote σpages σseries w = (Fulfilled (), w') ∧
    loadingMessage w' = Some parsingErrorMessage ∧
    loading w' = true ∧
    requests w' = requests w ++ [AvailableBookList 1].
Proof.
  intros H He. rewrite (reloadCollection_error _ _ _ _ _ _ H He).
  by eexists.
Qed.

(** C4 as stated fails: nothing in the merge removes a repeated id, so a
    listing that repeats an id leaves it twice in the record set. *)
Lemma reloadCollection_repeats_ids :
  ¬ (∀ remote σpages σseries w,
       NoDup (id <$> books (reloadCollection remote σpages σseries w).2)).
Proof.
  intros H.
  specialize (H Sample.duplicated Sample.inOrder Sample.inOrder Sample.previous).
  vm_compute in H. apply NoDup_cons in H as [Hin _]. apply Hin. by left.
Qed.

(** C4, amended. After a run, whatever its outcome, the ids of the record
    set are exactly the ids of the rows of the pages the run fetched
    without error, each as many times as the listing has it. So an id
    absent from the fetched listing is absent from the record set, and
    the ids of the record set are unique if and only if the fetched
    listing does not repeat an id. *)
Theorem reloadCollection_ids (remote : Url → KyAnswer)
    (σpages σseries : schedule) (w : World) :
  let w' := (reloadCollection remote σpages σseries w).2 in
  id <$> books w' ≡ₚ fetched_id <$> listedBooks remote ∧
  (∀ i, (i ∉ fetched_id <$> listedBooks remote) → i ∉ id <$> books w') ∧
  (NoDup (id <$> books w') ↔ NoDup (fetched_id <$> listedBooks remote)).
Proof.
  intros w'. pose proof (reloadCollection_ids_listed remote σpages σseries w) as H.
  fold w' in H. split; [done |]. split.
  - intros i. by rewrite H.
  - by rewrite H.
Qed.

(** C5. When page 1 is recorded and a page of the concurrent pass fails,
    the run returns with the partial-failure message and its error flag,
    the loading flag still set. The failure stops nothing: every page
    2 .. pageCount was requested, the merged rows of every page fetched
    without error, page 1 included, are in the record set, and the stored
    record set is this record set. *)
Theorem reloadCollection_partial_failure (remote : Url → KyAnswer)
    (σpages σseries : schedule) (w : World) (pageCount : Js.number) (failing : Z) :
  pageCountOf remote = Some pageCount →
  failing ∈ pagesNeedLoad pageCount →
  pageFails remote failing = true →
  ∃ w',
    reloadCollection remote σpages σseries w = (Fulfilled (), w') ∧
    loadingMessage w' = Some partialFailureMessage ∧
    loading w' = true ∧
    (∀ page row, page ∈ 1 :: pagesNeedLoad pageCount →
                 row ∈ fetchedRows remote page →
                 mergeBook (books w) row ∈ books w') ∧
    storage_books w' = Some (books w') ∧
    (∀ page, page ∈ pagesNeedLoad pageCount →
             AvailableBookList page ∈ requests w').
Proof.
  intros Hpc Hin Hfail.
  destruct (reloadCollection_listed remote σpages σseries w pageCount Hpc)
    as (w2 & Hbooks & Hreq & Hl & _ & _ & Hsb & Hrun & _).
  rewrite Hrun by eauto. eexists. split; [done |]. simpl.
  split; [done |]. split; [done |]. split; [| split; [done |]].
  - intros page row Hpage Hrow. rewrite Hbooks. apply list_elem_of_fmap_2.
    unfold listedBooks. rewrite Hpc. apply list_elem_of_bind. eauto.
  - intros page Hpage. rewrite Hreq, elem_of_app. right.
    apply list_elem_of_fmap_2. by right.
Qed.

Lemma reloadCollection_partial_failure_witness :
  ∃ w',
    reloadCollection Sample.threePages Sample.secondFirst Sample.inOrder
      Sample.previous = (Fulfilled (), w') ∧
    loadingMessage w' = Some partialFailureMessage ∧
    loading w' = true ∧
    (∀ page row, page ∈ 1 :: pagesNeedLoad (Js.Num 3) →
                 row ∈ fetchedRows Sample.threePages page →
                 mergeBook (books Sample.previous) row ∈ books w') ∧
    storage_books w' = Some (books w') ∧
    (∀ page, page ∈ pagesNeedLoad (Js.Num 3) →
             AvailableBookList page ∈ requests w').
Proof.
  apply (reloadCollection_partial_failure Sample.threePages Sample.secondFirst
           Sample.inOrder Sample.previous (Js.Num 3) 2).
  - reflexivity.
  - vm_compute. left.
  - reflexivity.
Defined.

(** The scenario of the specification: pages 1 and 3 of three are kept,
    page 3 completing before page 2 fails. *)
Example reloadCollection_three_pages :
  let w' := (reloadCollection Sample.threePages Sample.secondFirst Sample.inOrder
               Sample.previous).2 in
  name <$> books w' = ["A"; "B"; "C"] ∧
  requests w' = [AvailableBookList 1; AvailableBookList 3; AvailableBookList 2].
Proof. by vm_compute. Qed.

(** C6. When the listing pass succeeds, the enrichment pass runs one
    operation per record without series and the mapper is fulfilled with
    their outcomes, in the order of the record set: a TypeError or a
    request failure raised in [loadSeries] rejects the operation of that
    record and is recorded as its outcome, the request of every other
    record is made all the same, and the run returns normally with the
    loading flag and the message cleared, whatever the outcomes; a record
    whose operation rejected keeps its null series, the others get
    theirs. *)
Theorem enrichment_failures_stay_per_item (remote : Url → KyAnswer)
    (σpages σseries : schedule) (w : World) (pageCount : Js.number) :
  pageCountOf remote = Some pageCount →
  (∀ page, page ∈ pagesNeedLoad pageCount → pageFails remote page = false) →
  ∃ listed outcomes enriched message w',
    books listed ≡ₚ mergeBook (books w) <$> listedBooks remote ∧
    parallelMap (bookNeedLoadSeries (books listed)) (loadBookSeries remote) 5
      (λ done, set_loadingMessage (message done)) σseries listed
      = (Fulfilled outcomes, enriched) ∧
    outcomes = seriesOutcome remote <$> filter (λ b, series b = None) (books listed) ∧
    (∀ k b e, filter (λ b, series b = None) (books listed) !! k = Some b →
              resultOf (loadSeries remote (id b)) = Rejected e →
              outcomes !! k = Some (Rejected e)) ∧
    (∀ b, b ∈ books listed → series b = None → Product (id b) ∈ requests w') ∧
    reloadCollection remote σpages σseries w = (Fulfilled (), w') ∧
    books w' = enrich remote <$> books listed ∧
    loading w' = false ∧
    loadingMessage w' = None.
Proof.
  intros Hpc Hok.
  destruct (reloadCollection_listed remote σpages σseries w pageCount Hpc)
    as (w2 & Hbooks & _ & _ & _ & _ & _ & _ & Hrun).
  destruct (Hrun Hok) as (rs & w3 & message & Hpm & Hrs & Hb3 & Hreq & _ & Hrc).
  exists w2, rs, w3, message. eexists.
  split; [done |]. split; [done |]. split; [done |].
  split; [| split; [| split; [exact Hrc | done]]].
  - intros k b e Hk He. rewrite Hrs, list_lookup_fmap, Hk. simpl.
    by rewrite seriesOutcome_eq, He.
  - intros b Hb Hs. simpl. rewrite Hreq, elem_of_app. right.
    apply (list_elem_of_fmap_2 (λ b, Product (id b))).
    by apply list_elem_of_filter.
Qed.

Lemma enrichment_failures_stay_per_item_witness :
  ∃ listed outcomes enriched message w',
    books listed ≡ₚ
      mergeBook (books Sample.previous) <$> listedBooks Sample.twoPages ∧
    parallelMap (bookNeedLoadSeries (books listed)) (loadBookSeries Sample.twoPages) 5
      (λ done, set_loadingMessage (message done)) Sample.secondFirst listed
      = (Fulfilled outcomes, enriched) ∧
    outcomes =
      seriesOutcome Sample.twoPages <$> filter (λ b, series b = None) (books listed) ∧
    (∀ k b e, filter (λ b, series b = None) (books listed) !! k = Some b →
              resultOf (loadSeries Sample.twoPages (id b)) = Rejected e →
              outcomes !! k = Some (Rejected e)) ∧
    (∀ b, b ∈ books listed → series b = None → Product (id b) ∈ requests w') ∧
    reloadCollection Sample.twoPages Sample.inOrder Sample.secondFirst Sample.previous
      = (Fulfilled (), w') ∧
    books w' = enrich Sample.twoPages <$> books listed ∧
    loading w' = false ∧
    loadingMessage w' = None.
Proof.
  apply (enrichment_failures_stay_per_item Sample.twoPages Sample.inOrder
           Sample.secondFirst Sample.previous (Js.Num 2)).
  - reflexivity.
  - intros page Hin. vm_compute in Hin.
    apply elem_of_cons in Hin as [-> | Hin]; [reflexivity |].
    by apply elem_of_nil in Hin.
Defined.

(** The run on the sample: the product page of 11 has no breadcrumb, its
    [loadSeries] raises, and the run ends as a success with that record
    still without series. *)
Example reloadCollection_two_pages :
  let run := reloadCollection Sample.twoPages Sample.inOrder Sample.secondFirst
               Sample.previous in
  run.1 = Fulfilled () ∧
  loading run.2 = false ∧
  loadingMessage run.2 = None ∧
  series <$> books run.2 = [Some "Saga ("; None] ∧
  resultOf (loadSeries Sample.twoPages (Js.Num 11)) = Rejected TypeError.
Proof. by vm_compute. Qed.

(** C8 as stated fails: a run reaches overall success with a record whose
    series is null. *)
Lemma reloadCollection_success_with_null_series :
  ¬ (∀ remote σpages σseries w,
       let w' := (reloadCollection remote σpages σseries w).2 in
       loading w' = false →
       loadingMessage w' = None →
       ∀ b, b ∈ books w' → series b ≠ None).
Proof.
  intros H.
  apply (H Sample.twoPages Sample.inOrder Sample.secondFirst Sample.previous
           eq_refl eq_refl
           {| id := Js.Num 11; name := "B"; series := None;
              favorite := false; bookmark := false |}).
  - vm_compute. right. left.
  - reflexivity.
Qed.

(** C8, amended. After a run that reaches overall success, a record has a
    null series only if [loadSeries] rejected for its id; every record
    whose [loadSeries] is fulfilled has a series. *)
Theorem reloadCollection_series_after_success (remote : Url → KyAnswer)
    (σpages σseries : schedule) (w : World) :
  let w' := (reloadCollection remote σpages σseries w).2 in
  loading w' = false →
  loadingMessage w' = None →
  ∀ b, b ∈ books w' →
       series b = None →
       ∃ e, resultOf (loadSeries remote (id b)) = Rejected e.
Proof.
  intros w' Hloading _ b Hb Hs. subst w'.
  destruct (pageCountOf remote) as [pageCount|] eqn:Hpc.
  - destruct (reloadCollection_listed remote σpages σseries w pageCount Hpc)
      as (w2 & _ & _ & Hl & _ & _ & _ & Hfail & Hok).
    destruct (pages_fail_dec remote (pagesNeedLoad pageCount)) as [Hf | Hall].
    + rewrite (Hfail Hf) in Hloading. simpl in Hloading. congruence.
    + destruct (Hok Hall) as (rs & w3 & message & _ & _ & Hb3 & _ & _ & Hrc).
      rewrite Hrc in Hb. simpl in Hb. rewrite Hb3 in Hb.
      apply list_elem_of_fmap in Hb as (b0 & -> & _).
      rewrite enrich_id. rewrite enrich_eq in Hs.
      pose proof (loadSeries_settles remote (id b0)) as Hsettle.
      destruct (series b0) eqn:Hs0; [congruence |].
      destruct (resultOf (loadSeries remote (id b0))) as [loaded|e|]; [done | eauto | done].
  - destruct (reloadCollection_not_listed remote σpages σseries w Hpc)
      as (r & w' & Hrc & _ & Hl & _).
    rewrite Hrc in Hloading. simpl in Hloading. congruence.
Qed.

Lemma reloadCollection_series_after_success_witness :
  ∃ e, resultOf (loadSeries Sample.twoPages (Js.Num 11)) = Rejected e.
Proof.
  apply (reloadCollection_series_after_success Sample.twoPages Sample.inOrder
           Sample.secondFirst Sample.previous eq_refl eq_refl
           {| id := Js.Num 11; name := "B"; series := None;
              favorite := false; bookmark := false |}).
  - vm_compute. right. left.
  - reflexivity.
Defined.

(** C9. When the listing pass fails, by an error of page 1 or by the
    failure of a later page, the run sets the message of that failure,
    with its error flag, and returns: the loading flag is still set and
    no product page was requested, the requests being those of the
    listing pages. When the listing pass succeeds, the enrichment pass
    runs over the records without series, one request each, and then the
    loading flag and the message are cleared. *)
Theorem reloadCollection_stage_gate (remote : Url → KyAnswer)
    (σpages σseries : schedule) (w : World) :
  (∀ listing error,
     resultOf (loadAvailableBookList remote 1) = Fulfilled listing →
     listing_error listing = Some error →
     ∃ w',
       reloadCollection remote σpages σseries w = (Fulfilled (), w') ∧
       loadingMessage w' =
         Some match error with
              | NO_LOGIN => noLoginMessage
              | PARSING_ERROR => parsingErrorMessage
              end ∧
       loading w' = true ∧
       requests w' = requests w ++ [AvailableBookList 1]) ∧
  (∀ pageCount failing,
     pageCountOf remote = Some pageCount →
     failing ∈ pagesNeedLoad pageCount →
     pageFails remote failing = true →
     ∃ w',
       reloadCollection remote σpages σseries w = (Fulfilled (), w') ∧
       loadingMessage w' = Some partialFailureMessage ∧
       loading w' = true ∧
       requests w' ≡ₚ
         requests w ++ (AvailableBookList <$> 1 :: pagesNeedLoad pageCount)) ∧
  (∀ pageCount,
     pageCountOf remote = Some pageCount →
     (∀ page, page ∈ pagesNeedLoad pageCount → pageFails remote page = false) →
     ∃ listed w',
       reloadCollection remote σpages σseries w = (Fulfilled (), w') ∧
       books listed ≡ₚ mergeBook (books w) <$> listedBooks remote ∧
       books w' = enrich remote <$> books listed ∧
       requests w' ≡ₚ
         requests w ++ (AvailableBookList <$> 1 :: pagesNeedLoad pageCount) ++
         ((λ b, Product (id b)) <$> filter (λ b, series b = None) (books listed)) ∧
       loading w' = false ∧
       loadingMessage w' = None).
Proof.
  split; [| split].
  - intros listing error H He.
    rewrite (reloadCollection_error _ _ _ _ _ _ H He). by eexists.
  - intros pageCount failing Hpc Hin Hfail.
    destruct (reloadCollection_listed remote σpages σseries w pageCount Hpc)
      as (w2 & _ & Hreq & Hl & _ & _ & _ & Hrun & _).
    rewrite Hrun by eauto. by eexists.
  - intros pageCount Hpc Hok.
    destruct (reloadCollection_listed remote σpages σseries w pageCount Hpc)
      as (w2 & Hbooks & Hreq & _ & _ & _ & _ & _ & Hrun).
    destruct (Hrun Hok) as (rs & w3 & message & _ & _ & Hb3 & Hreq3 & _ & Hrc).
    exists w2. eexists. split; [exact Hrc |]. simpl.
    split; [done |]. split; [done |]. split; [| done].
    by rewrite Hreq3, Hreq, <- app_assoc.
Qed.

(** The three cases of C9 on the samples: a redirected page 1, a failing
    page 2 of three, two good pages. *)
Lemma reloadCollection_stage_gate_witness :
  (∃ w',
     reloadCollection Sample.notLoggedIn Sample.inOrder Sample.inOrder Sample.previous
       = (Fulfilled (), w') ∧
     loadingMessage w' = Some noLoginMessage ∧
     loading w' = true ∧
     requests w' = requests Sample.previous ++ [AvailableBookList 1]) ∧
  (∃ w',
     reloadCollection Sample.threePages Sample.inOrder Sample.inOrder Sample.previous
       = (Fulfilled (), w') ∧
     loadingMessage w' = Some partialFailureMessage ∧
     loading w' = true ∧
     requests w' ≡ₚ
       requests Sample.previous ++
       (AvailableBookList <$> 1 :: pagesNeedLoad (Js.Num 3))) ∧
  (∃ listed w',
     reloadCollection Sample.twoPages Sample.inOrder Sample.inOrder Sample.previous
       = (Fulfilled (), w') ∧
     books listed ≡ₚ
       mergeBook (books Sample.previous) <$> listedBooks Sample.twoPages ∧
     books w' = enrich Sample.twoPages <$> books listed ∧
     requests w' ≡ₚ
       requests Sample.previous ++
       (AvailableBookList <$> 1 :: pagesNeedLoad (Js.Num 2)) ++
       ((λ b, Product (id b)) <$> filter (λ b, series b = None) (books listed)) ∧
     loading w' = false ∧
     loadingMessage w' = None).
Proof.
  split; [| split].
  - apply (proj1 (reloadCollection_stage_gate Sample.notLoggedIn Sample.inOrder
                    Sample.inOrder Sample.previous)
             {| listing_doc := None; listing_books := None;
                listing_error := Some NO_LOGIN |} NO_LOGIN);
      reflexivity.
  - apply (proj1 (proj2 (reloadCollection_stage_gate Sample.threePages Sample.inOrder
                           Sample.inOrder Sample.previous))
             (Js.Num 3) 2); [reflexivity | vm_compute; left | reflexivity].
  - apply (proj2 (proj2 (reloadCollection_stage_gate Sample.twoPages Sample.inOrder
                           Sample.inOrder Sample.previous))
             (Js.Num 2)); [reflexivity |].
    intros page Hin. vm_compute in Hin.
    apply elem_of_cons in Hin as [-> | Hin]; [reflexivity |].
    by apply elem_of_nil in Hin.
Defined.

(** * Further properties *)

(** ** The toggles *)

Lemma toggleFirst_None flip i bs :
  toggleFirst flip i bs = None ↔ unknownId bs i.
Proof.
  unfold unknownId. induction bs as [|b bs IH]; simpl.
  - split; [| done]. intros _ b Hb. by apply elem_of_nil in Hb.
  - destruct (Js.strict_eq (id b) i) eqn:Hb.
    + split; [done |]. intros H. rewrite H in Hb; [done | by left].
    + destruct (toggleFirst flip i bs) as [bs'|]; simpl.
      * split; [done |]. intros H.
        assert (Some bs' = None); [| done].
        apply IH. intros b' Hb'. apply H. by right.
      * split; [| done]. intros _ b' [-> | Hb']%elem_of_cons; [done |].
        by apply (proj1 IH).
Qed.

Lemma toggleFirst_Some flip i bs bs' :
  toggleFirst flip i bs = Some bs' ↔
  ∃ before old after,
    bs = before ++ old :: after ∧
    Js.strict_eq (id old) i = true ∧
    Forall (λ b, Js.strict_eq (id b) i = false) before ∧
    bs' = before ++ flip old :: after.
Proof.
  revert bs'. induction bs as [|b bs IH]; intros bs'; simpl.
  - split; [done |]. intros (before & old & after & E & _). by destruct before.
  - destruct (Js.strict_eq (id b) i) eqn:Hb.
    + split.
      * intros [= <-]. by exists [], b, bs.
      * intros ([|b0 before] & old & after & E & Hold & Hbefore & ->); simplify_eq/=.
        -- done.
        -- apply Forall_cons in Hbefore as [? _]. congruence.
    + destruct (toggleFirst flip i bs) as [bs1|] eqn:Ht; simpl.
      * split.
        -- intros [= <-]. destruct (proj1 (IH bs1) eq_refl)
             as (before & old & after & -> & Hold & Hbefore & ->).
           exists (b :: before), old, after. repeat split; try done. by constructor.
        -- intros ([|b0 before] & old & after & E & Hold & Hbefore & ->); simplify_eq/=.
           ++ congruence.
           ++ apply Forall_cons in Hbefore as [_ Hbefore]. f_equal.
              assert (Some bs1 = Some (before ++ flip old :: after)) as [= ->]; [| done].
              apply IH. by exists before, old, after.
      * split; [done |].
        intros ([|b0 before] & old & after & E & Hold & Hbefore & ->); simplify_eq/=.
        -- congruence.
        -- apply Forall_cons in Hbefore as [_ Hbefore].
           assert (None = Some (before ++ flip old :: after)); [| done].
           apply IH. by exists before, old, after.
Qed.

(** What a toggle does to the world: nothing for an unknown id; otherwise
    the flipped record set, stored. *)
Lemma switch_run flip i w :
  (λ w, match toggleFirst flip i (books w) with
        | None => (Fulfilled tt, w)
        | Some bs => saveBooks (set_books (λ _, bs) w)
        end) w =
  (Fulfilled (),
   match toggleFirst flip i (books w) with
   | None => w
   | Some bs => set_storage_books bs (set_books (λ _, bs) w)
   end).
Proof. simpl. by destruct (toggleFirst flip i (books w)). Qed.

Lemma switchFavorite_run i w :
  switchFavorite i w =
  (Fulfilled (),
   match toggleFirst flipFavorite i (books w) with
   | None => w
   | Some bs => set_storage_books bs (set_books (λ _, bs) w)
   end).
Proof. apply (switch_run flipFavorite). Qed.

Lemma switchBookmark_run i w :
  switchBookmark i w =
  (Fulfilled (),
   match toggleFirst flipBookmark i (books w) with
   | None => w
   | Some bs => set_storage_books bs (set_books (λ _, bs) w)
   end).
Proof. apply (switch_run flipBookmark). Qed.

Section Flip.
Variable flip : Book → Book.
Hypothesis flip_id : ∀ b, id (flip b) = id b.

Lemma toggled_cons i b bs :
  toggled flip i (b :: bs) =
  if Js.strict_eq (id b) i then flip b :: bs else b :: toggled flip i bs.
Proof.
  unfold toggled. simpl. destruct (Js.strict_eq (id b) i); [done |].
  by destruct (toggleFirst flip i bs).
Qed.

Lemma toggleFirst_again i bs bs' :
  (∀ b, flip (flip b) = b) →
  toggleFirst flip i bs = Some bs' → toggleFirst flip i bs' = Some bs.
Proof.
  intros Hinv (before & old & after & -> & Hold & Hbefore & ->)%toggleFirst_Some.
  apply toggleFirst_Some. exists before, (flip old), after.
  rewrite flip_id, Hinv. done.
Qed.

Lemma toggleFirst_unknown_stable (other : Book → Book) i j bs :
  (∀ b, id (other b) = id b) →
  is_Some (toggleFirst flip i (default bs (toggleFirst other j bs))) ↔
  is_Some (toggleFirst flip i bs).
Proof.
  intros Hother. induction bs as [|b bs IH]; [done |]. simpl.
  destruct (Js.strict_eq (id b) j) eqn:Hj; simpl.
  - rewrite Hother. destruct (Js.strict_eq (id b) i).
    + split; eauto.
    + by rewrite !fmap_is_Some.
  - destruct (toggleFirst other j bs) as [bs1|]; simpl in *; [| done].
    destruct (Js.strict_eq (id b) i); [done |].
    by rewrite !fmap_is_Some.
Qed.
End Flip.

(** Two toggles that keep the id and commute on a record commute on the
    record set. *)
Lemma toggled_comm (f g : Book → Book) i j bs :
  (∀ b, id (f b) = id b) →
  (∀ b, id (g b) = id b) →
  (∀ b, f (g b) = g (f b)) →
  toggled f i (toggled g j bs) = toggled g j (toggled f i bs).
Proof.
  intros Hf Hg Hfg. induction bs as [|b bs IH]; [done |].
  rewrite (toggled_cons g), (toggled_cons f).
  destruct (Js.strict_eq (id b) j) eqn:Hj, (Js.strict_eq (id b) i) eqn:Hi;
    rewrite ?(toggled_cons f), ?(toggled_cons g), ?Hf, ?Hg, ?Hi, ?Hj, ?Hfg, ?IH;
    done.
Qed.

Lemma flipFavorite_id b : id (flipFavorite b) = id b.
Proof. done. Qed.

Lemma flipBookmark_id b : id (flipBookmark b) = id b.
Proof. done. Qed.

Lemma flipFavorite_twice b : flipFavorite (flipFavorite b) = b.
Proof. destruct b as [? ? ? [] ?]; done. Qed.

Lemma flipBookmark_twice b : flipBookmark (flipBookmark b) = b.
Proof. destruct b as [? ? ? ? []]; done. Qed.

Lemma previousOf_unknown bs i old : previousOf bs i old → unknownId bs i → False.
Proof.
  intros (before & after & -> & Hold & _) Hun.
  rewrite Hun in Hold; [done |]. rewrite elem_of_app, elem_of_cons. auto.
Qed.

(** X1. [switchFavorite] does nothing at all when no book has the id,
    and nothing is stored then. Otherwise it negates the favorite flag of
    the first book with this id and of no other, keeps the order and
    every other field, and stores the record set. *)
Theorem switchFavorite_first_match (bookId : Js.number) (w : World) :
  (unknownId (books w) bookId → switchFavorite bookId w = (Fulfilled (), w)) ∧
  (∀ before old after,
     books w = before ++ old :: after →
     Js.strict_eq (id old) bookId = true →
     Forall (λ b, Js.strict_eq (id b) bookId = false) before →
     ∃ w',
       switchFavorite bookId w = (Fulfilled (), w') ∧
       books w' = before ++ flipFavorite old :: after ∧
       storage_books w' = Some (books w') ∧
       topSeries w' = topSeries w ∧
       storage_topSeries w' = storage_topSeries w ∧
       loading w' = loading w ∧
       loadingMessage w' = loadingMessage w ∧
       requests w' = requests w).
Proof.
  rewrite switchFavorite_run. split.
  - intros Hun. by rewrite (proj2 (toggleFirst_None _ _ _) Hun).
  - intros before old after E Hold Hbefore.
    rewrite (proj2 (toggleFirst_Some flipFavorite bookId (books w)
                      (before ++ flipFavorite old :: after)))
      by (by exists before, old, after).
    by eexists.
Qed.

(** X2. Two calls of [switchFavorite] with the same id give back the
    record set, and nothing else of the state has changed; when the id
    is known the stored record set is this record set again. *)
Theorem switchFavorite_twice (bookId : Js.number) (w : World) :
  let w2 := (switchFavorite bookId (switchFavorite bookId w).2).2 in
  books w2 = books w ∧
  topSeries w2 = topSeries w ∧
  storage_topSeries w2 = storage_topSeries w ∧
  loading w2 = loading w ∧
  loadingMessage w2 = loadingMessage w ∧
  requests w2 = requests w ∧
  (unknownId (books w) bookId → storage_books w2 = storage_books w) ∧
  (∀ old, previousOf (books w) bookId old → storage_books w2 = Some (books w)).
Proof.
  intros w2. subst w2. rewrite (switchFavorite_run bookId w). simpl.
  destruct (toggleFirst flipFavorite bookId (books w)) as [bs|] eqn:Ht.
  - rewrite switchFavorite_run. simpl.
    rewrite (toggleFirst_again _ flipFavorite_id _ _ _ flipFavorite_twice Ht). simpl.
    repeat split; try done.
    intros Hun. apply (toggleFirst_None flipFavorite) in Hun. congruence.
  - rewrite switchFavorite_run, Ht. repeat split; try done.
    intros old Hold. exfalso. apply (previousOf_unknown _ _ _ Hold).
    by apply (toggleFirst_None flipFavorite).
Qed.

(** X3. [switchBookmark] does nothing at all when no book has the id.
    Otherwise it negates the bookmark flag of the first book with this id
    and of no other, keeps the order and every other field, and stores the
    record set. *)
Theorem switchBookmark_first_match (bookId : Js.number) (w : World) :
  (unknownId (books w) bookId → switchBookmark bookId w = (Fulfilled (), w)) ∧
  (∀ before old after,
     books w = before ++ old :: after →
     Js.strict_eq (id old) bookId = true →
     Forall (λ b, Js.strict_eq (id b) bookId = false) before →
     ∃ w',
       switchBookmark bookId w = (Fulfilled (), w') ∧
       books w' = before ++ flipBookmark old :: after ∧
       storage_books w' = Some (books w') ∧
       topSeries w' = topSeries w ∧
       storage_topSeries w' = storage_topSeries w ∧
       loading w' = loading w ∧
       loadingMessage w' = loadingMessage w ∧
       requests w' = requests w).
Proof.
  rewrite switchBookmark_run. split.
  - intros Hun. by rewrite (proj2 (toggleFirst_None _ _ _) Hun).
  - intros before old after E Hold Hbefore.
    rewrite (proj2 (toggleFirst_Some flipBookmark bookId (books w)
                      (before ++ flipBookmark old :: after)))
      by (by exists before, old, after).
    by eexists.
Qed.

(** X4. Two calls of [switchBookmark] with the same id give back the
    record set, and nothing else of the state has changed; when the id
    is known the stored record set is this record set again. *)
Theorem switchBookmark_twice (bookId : Js.number) (w : World) :
  let w2 := (switchBookmark bookId (switchBookmark bookId w).2).2 in
  books w2 = books w ∧
  topSeries w2 = topSeries w ∧
  storage_topSeries w2 = storage_topSeries w ∧
  loading w2 = loading w ∧
  loadingMessage w2 = loadingMessage w ∧
  requests w2 = requests w ∧
  (unknownId (books w) bookId → storage_books w2 = storage_books w) ∧
  (∀ old, previousOf (books w) bookId old → storage_books w2 = Some (books w)).
Proof.
  intros w2. subst w2. rewrite (switchBookmark_run bookId w). simpl.
  destruct (toggleFirst flipBookmark bookId (books w)) as [bs|] eqn:Ht.
  - rewrite switchBookmark_run. simpl.
    rewrite (toggleFirst_again _ flipBookmark_id _ _ _ flipBookmark_twice Ht). simpl.
    repeat split; try done.
    intros Hun. apply (toggleFirst_None flipBookmark) in Hun. congruence.
  - rewrite switchBookmark_run, Ht. repeat split; try done.
    intros old Hold. exfalso. apply (previousOf_unknown _ _ _ Hold).
    by apply (toggleFirst_None flipBookmark).
Qed.

Lemma flip_comm b : flipFavorite (flipBookmark b) = flipBookmark (flipFavorite b).
Proof. done. Qed.

Lemma toggleFirst_after (f g : Book → Book) i j bs :
  (∀ b, id (f b) = id b) →
  (∀ b, id (g b) = id b) →
  toggleFirst f i (toggled g j bs) =
  match toggleFirst f i bs with
  | Some _ => Some (toggled f i (toggled g j bs))
  | None => None
  end.
Proof.
  intros Hf Hg.
  pose proof (toggleFirst_unknown_stable f g i j bs Hg) as Hst. fold (toggled g j bs) in Hst.
  unfold toggled at 2.
  destruct (toggleFirst f i (toggled g j bs)) as [bs1|] eqn:E1,
           (toggleFirst f i bs) as [bs2|] eqn:E2; simpl; try done.
  - destruct (proj1 Hst) as [? ?]; [by eexists | done].
  - destruct (proj2 Hst) as [? ?]; [by eexists | done].
Qed.

(** X5. The two toggles commute: [switchFavorite] then [switchBookmark],
    on the same id or on different ones, leaves the same state and the
    same stored record set as [switchBookmark] then [switchFavorite]. *)
Theorem switchFavorite_switchBookmark_commute (i j : Js.number) (w : World) :
  (switchBookmark j (switchFavorite i w).2).2 =
  (switchFavorite i (switchBookmark j w).2).2.
Proof.
  rewrite (switchFavorite_run i w), (switchBookmark_run j w). simpl.
  rewrite switchBookmark_run, switchFavorite_run. simpl.
  pose proof (toggleFirst_after flipBookmark flipFavorite j i (books w)
                flipBookmark_id flipFavorite_id) as HB.
  pose proof (toggleFirst_after flipFavorite flipBookmark i j (books w)
                flipFavorite_id flipBookmark_id) as HF.
  pose proof (toggled_comm flipFavorite flipBookmark i j (books w)
                flipFavorite_id flipBookmark_id flip_comm) as Hcomm.
  unfold toggled in HB at 1. unfold toggled in HF at 1.
  destruct (toggleFirst flipFavorite i (books w)) as [bf|] eqn:EF,
           (toggleFirst flipBookmark j (books w)) as [bb|] eqn:EB; simpl in *.
  - rewrite HB, HF, Hcomm. done.
  - by rewrite HB, EF.
  - by rewrite HF.
  - by rewrite EF.
Qed.

(** ** The labels *)

(** X6. [switchTopSeries] keeps the label list free of duplicates. *)
Theorem switchTopSeries_keeps_NoDup (name : string) (w : World) :
  NoDup (topSeries w) → NoDup (topSeries (switchTopSeries name w).2).
Proof.
  intros Hnd. unfold switchTopSeries, mbind, M_bind, read, update. simpl.
  destruct (existsb (String.eqb name) (topSeries w)) eqn:Hin; simpl.
  - by apply NoDup_filter.
  - apply NoDup_app. split; [done |]. split; [| apply NoDup_singleton].
    intros s Hs ->%list_elem_of_singleton.
    assert (existsb (String.eqb name) (topSeries w) = true); [| congruence].
    apply existsb_exists. exists name.
    split; [by apply list_elem_of_In | apply String.eqb_refl].
Qed.

Lemma switchTopSeries_keeps_NoDup_witness :
  NoDup (topSeries (switchTopSeries "b" (initialState None (Some ["a"; "b"]))).2).
Proof.
  apply (switchTopSeries_keeps_NoDup "b" (initialState None (Some ["a"; "b"]))).
  simpl. apply (bool_decide_unpack _). reflexivity.
Defined.

(** ** The parsers *)






(** X7. [loadAvailableBookList] changes nothing of the state and makes
    one request. It rejects only when [ky.get] does. A redirected
    response resolves to NO_LOGIN whatever its body. Otherwise it
    resolves either to the document with one row per [buy_info] element,
    in order, each with the title of its first [buy_book] element, or to
    PARSING_ERROR, and this exactly when [#order_book] is missing or a
    row lacks its [buy_book] element, its [bookbor] element or the [src]
    of the latter; [doc] and [books] are present exactly when [error] is
    not. *)
Theorem loadAvailableBookList_outcome (remote : Url → KyAnswer) (page : Z)
    (w : World) :
  ∃ result,
    loadAvailableBookList remote page w =
      (result, log_request (AvailableBookList page) w) ∧
    match remote (AvailableBookList page) with
    | KyRejects => result = Rejected HTTPError
    | KyResponse true _ =>
        result = Fulfilled {| listing_doc := None; listing_books := None;
                              listing_error := Some NO_LOGIN |}
    | KyResponse false doc =>
        (∃ infos rows,
           order_book doc = Some infos ∧
           result = Fulfilled {| listing_doc := Some doc;
                                 listing_books := Some rows;
                                 listing_error := None |} ∧
           Forall2 (λ info row,
                      ∃ title image source,
                        head (buy_book info) = Some title ∧
                        head (bookbor info) = Some image ∧
                        src image = Some source ∧
                        fetched_name row = innerHTML title)
                   infos rows) ∨
        (result = Fulfilled {| listing_doc := None; listing_books := None;
                               listing_error := Some PARSING_ERROR |} ∧
         (order_book doc = None ∨
          ∃ infos info,
            order_book doc = Some infos ∧
            info ∈ infos ∧
            (buy_book info = [] ∨
             bookbor info = [] ∨
             ∃ image, head (bookbor info) = Some image ∧ src image = None)))
    end.
Proof.
  rewrite loadAvailableBookList_run. eexists. split; [done |].
  unfold resultOf, loadAvailableBookList, ky_get, mbind, M_bind, mret, M_ret. simpl.
  destruct (remote (AvailableBookList page)) as [|[] doc]; simpl; [done | done |].
  unfold listingOfResponse.
  destruct (order_book doc) as [infos|] eqn:Hob; simpl; [| by right; split; [| left]].
  destruct (mapM parseRow infos) as [rows|] eqn:Hrows.
  - left. exists infos, rows. split; [done |]. split; [done |].
    apply mapM_Some_1 in Hrows. eapply Forall2_impl; [exact Hrows |].
    intros info row. unfold parseRow. simpl.
    destruct (head (buy_book info)) as [title|]; [| done]. simpl.
    destruct (head (bookbor info)) as [image|]; [| done]. simpl.
    destruct (src image) as [source|] eqn:Hsrc; [| done]. simpl.
    intros [= <-]. by exists title, image, source.
  - right. split; [done |]. right.
    apply mapM_None_1, Exists_exists in Hrows as (info & Hin & Hnone).
    exists infos, info. split; [done |]. split; [done |].
    unfold parseRow in Hnone.
    destruct (buy_book info) as [|title ?]; [by left |]. simpl in Hnone.
    destruct (bookbor info) as [|image ?]; [by right; left |]. simpl in Hnone.
    right. right. exists image. split; [done |].
    by destruct (src image).
Qed.









Lemma parsePageCount_outcome_covers (doc : Document) :
  (∃ bar bars before link last label labels,
     bw_pagination doc = bar :: bars ∧
     children bar = before ++ [link; last] ∧
     children link = label :: labels) ∨
  (bw_pagination doc = [] ∨
   (∃ bar bars,
      bw_pagination doc = bar :: bars ∧
      ((length (children bar) < 2)%nat ∨
       ∃ before link last,
         children bar = before ++ [link; last] ∧ children link = []))).
Proof.
  destruct (bw_pagination doc) as [|bar bars]; [by right; left |].
  destruct (decide (length (children bar) < 2)%nat) as [Hshort | Hlong].
  { right. right. exists bar, bars. split; [done | by left]. }
  assert (∃ before link last, children bar = before ++ [link; last])
    as (before & link & last & Hbar).
  { destruct (children bar) as [|a l] using rev_ind; [simpl in Hlong; lia |].
    clear IHl. destruct l as [|b l] using rev_ind.
    - simpl in Hlong. lia.
    - exists l, b, a. by rewrite <- app_assoc. }
  destruct (children link) as [|label labels] eqn:Hlink.
  - right. right. exists bar, bars. split; [done |]. right. by exists before, link, last.
  - left. by exists bar, bars, before, link, last, label, labels.
Qed.

(** ** The run as a whole *)

Section WholeRun.
Variable remote : Url → KyAnswer.
Variables σpages σseries : schedule.

Lemma existsb_pageFails_true pages :
  existsb (pageFails remote) pages = true ↔
  ∃ page, page ∈ pages ∧ pageFails remote page = true.
Proof.
  rewrite existsb_exists. split; intros (page & Hin & Hf); exists page;
    (split; [by apply list_elem_of_In | done]).
Qed.

Lemma listingDone_true :
  listingDone remote = true ↔
  ∃ pageCount,
    pageCountOf remote = Some pageCount ∧
    ∀ page, page ∈ pagesNeedLoad pageCount → pageFails remote page = false.
Proof.
  unfold listingDone. destruct (pageCountOf remote) as [pageCount|]; split.
  - intros Hneg. exists pageCount. split; [done |]. intros page Hin.
    destruct (pageFails remote page) eqn:Hf; [| done].
    rewrite (proj2 (existsb_pageFails_true _)) in Hneg by eauto. done.
  - intros (pc & [= <-] & Hall).
    destruct (existsb (pageFails remote) (pagesNeedLoad pageCount)) eqn:Hex; [| done].
    apply existsb_pageFails_true in Hex as (page & Hin & Hf).
    rewrite Hall in Hf; done.
  - done.
  - by intros (? & ? & _).
Qed.

Lemma listingDone_false_failing pageCount :
  pageCountOf remote = Some pageCount →
  listingDone remote = false →
  ∃ page, page ∈ pagesNeedLoad pageCount ∧ pageFails remote page = true.
Proof.
  unfold listingDone. intros ->. intros Hneg. apply existsb_pageFails_true.
  by destruct (existsb (pageFails remote) (pagesNeedLoad pageCount)).
Qed.

(** The world a run ends in when page 1 gives no page count: that of the
    first request, with at most an error message set. *)
Lemma reloadCollection_stopped w :
  pageCountOf remote = None →
  ∃ r w',
    reloadCollection remote σpages σseries w = (r, w') ∧
    (w' = afterFirstRequest w ∨
     ∃ m, r = Fulfilled () ∧ w' = set_loadingMessage (Some m) (afterFirstRequest w)) ∧
    r ≠ Pending.
Proof.
  intros Hpc. unfold pageCountOf in Hpc.
  destruct (resultOf (loadAvailableBookList remote 1)) as [l|e|] eqn:H.
  - destruct (listing_error l) as [error|] eqn:He.
    + rewrite (reloadCollection_error _ _ _ _ _ _ H He). eexists _, _.
      split; [done |]. split; [right; by eexists | done].
    + destruct (resultOf_listing _ _ _ H) as (r & d & ->).
      destruct (listingOfResponse_ok _ _ He) as [rows Hl]. rewrite Hl in *.
      simpl in Hpc. destruct (pageCountText d) eqn:Ht; [done |].
      rewrite (reloadCollection_no_pagination _ _ _ _ _ d H) by done.
      eexists _, _. split; [done |]. split; [by left | done].
  - rewrite (reloadCollection_rejected _ _ _ _ _ H). eexists _, _.
    split; [done |]. split; [by left | done].
  - exfalso. revert H. run_M. by destruct (remote (AvailableBookList 1)).
Qed.

(** The world a run ends in, whatever its outcome: the result is
    settled, the record set is the merge of the fetched rows, enriched
    when the listing pass was complete, the stored record set follows once
    page 1 is recorded, and the labels are never touched. *)
Lemma reloadCollection_world w :
  ∃ r w',
    reloadCollection remote σpages σseries w = (r, w') ∧
    r ≠ Pending ∧
    books w' ≡ₚ finished remote <$> (mergeBook (books w) <$> listedBooks remote) ∧
    requests w' ≡ₚ
      requests w ++
      (AvailableBookList <$>
         1 :: match pageCountOf remote with
              | Some pageCount => pagesNeedLoad pageCount
              | None => []
              end) ++
      (if listingDone remote
       then (λ b, Product (id b)) <$>
              filter (λ b, series b = None)
                (mergeBook (books w) <$> listedBooks remote)
       else []) ∧
    topSeries w' = topSeries w ∧
    storage_topSeries w' = storage_topSeries w ∧
    loading w' = negb (listingDone remote) ∧
    match pageCountOf remote with
    | Some _ => r = Fulfilled () ∧ storage_books w' = Some (books w')
    | None => storage_books w' = storage_books w
    end.
Proof.
  destruct (pageCountOf remote) as [pageCount|] eqn:Hpc.
  - destruct (reloadCollection_listed remote σpages σseries w pageCount Hpc)
      as (w2 & Hbooks & Hreq & Hl & Ht & Hst & Hsb & Hfail & Hok).
    destruct (listingDone remote) eqn:Hdone.
    + apply listingDone_true in Hdone as (pc & Hpc' & Hall).
      rewrite Hpc in Hpc'. injection Hpc' as <-.
      destruct (Hok Hall)
        as (rs & w3 & message & _ & _ & Hb3 & Hreq3 & Hw3 & Hrc).
      destruct Hw3 as (_ & _ & Hl3 & Ht3 & Hst3 & Hsb3).
      eexists _, _. split; [exact Hrc |]. simpl.
      split; [done |]. split; [| split; [| split; [| split; [| split]]]].
      * unfold finished.
        assert (listingDone remote = true) as ->
          by (apply listingDone_true; eauto).
        by rewrite Hb3, Hbooks.
      * rewrite Hreq3, Hreq, Hbooks, <- app_assoc. done.
      * congruence.
      * congruence.
      * done.
      * split; [done |]. by apply Hsb3.
    + destruct (listingDone_false_failing pageCount Hpc Hdone) as (page & Hin & Hf).
      rewrite Hfail by eauto.
      eexists _, _. split; [done |]. simpl.
      split; [done |]. split; [| split; [| split; [| split; [| split]]]]; try done.
      * unfold finished. rewrite Hdone, Hbooks.
        by rewrite list_fmap_id.
      * by rewrite Hreq, app_nil_r.
  - destruct (reloadCollection_stopped w Hpc) as (r & w' & Hrc & Hw' & Hr).
    exists r, w'. split; [done |]. split; [done |].
    assert (listingDone remote = false) as Hdone by (unfold listingDone; by rewrite Hpc).
    unfold listedBooks. rewrite Hdone, Hpc.
    destruct Hw' as [-> | (m & _ & ->)]; simpl; repeat split; done.
Qed.
End WholeRun.

Lemma mergeBook_previous originBooks row old :
  previousOf originBooks (fetched_id row) old →
  series (mergeBook originBooks row) = series old ∧
  favorite (mergeBook originBooks row) = favorite old ∧
  bookmark (mergeBook originBooks row) = bookmark old.
Proof.
  intros Hold. pose proof (find_previousOf originBooks (fetched_id row)) as Hfind.
  unfold mergeBook. simpl.
  destruct (find (λ old, Js.strict_eq (id old) (fetched_id row)) originBooks)
    as [found|]; simpl.
  - by rewrite (previousOf_unique _ _ _ _ Hold Hfind).
  - destruct (previousOf_unknown _ _ _ Hold Hfind).
Qed.

Lemma mergeBook_unknown originBooks row :
  unknownId originBooks (fetched_id row) →
  series (mergeBook originBooks row) = None ∧
  favorite (mergeBook originBooks row) = false ∧
  bookmark (mergeBook originBooks row) = false.
Proof.
  intros Hun. pose proof (find_previousOf originBooks (fetched_id row)) as Hfind.
  unfold mergeBook. simpl.
  destruct (find (λ old, Js.strict_eq (id old) (fetched_id row)) originBooks)
    as [found|]; simpl; [| done].
  destruct (previousOf_unknown _ _ _ Hfind Hun).
Qed.

(** A record has a previous entity or its id is unknown. *)
Lemma previousOf_or_unknown originBooks i :
  (∃ old, previousOf originBooks i old) ∨ unknownId originBooks i.
Proof.
  pose proof (find_previousOf originBooks i) as Hfind.
  destruct (find (λ old, Js.strict_eq (id old) i) originBooks); eauto.
Qed.

Lemma finished_fields remote b :
  id (finished remote b) = id b ∧
  name (finished remote b) = name b ∧
  favorite (finished remote b) = favorite b ∧
  bookmark (finished remote b) = bookmark b ∧
  (series b ≠ None → series (finished remote b) = series b).
Proof.
  unfold finished. destruct (listingDone remote); [| by repeat split].
  rewrite enrich_eq. destruct (series b) eqn:Hs; [by repeat split |].
  destruct (resultOf (loadSeries remote (id b))); by repeat split.
Qed.

(** X11. A run always settles. It rejects in two cases only: with the
    error of [ky.get] when the request of page 1 fails, and with a
    TypeError when page 1 has its rows but not the pagination structure;
    every other run returns normally. A run that rejects leaves the
    record set empty, the loading flag set, and the message and the
    stored record set as they were. *)
Theorem reloadCollection_rejections (remote : Url → KyAnswer)
    (σpages σseries : schedule) (w : World) :
  ∃ result w',
    reloadCollection remote σpages σseries w = (result, w') ∧
    result ≠ Pending ∧
    (result = Rejected HTTPError ↔ remote (AvailableBookList 1) = KyRejects) ∧
    (result = Rejected TypeError ↔
     ∃ doc infos rows,
       remote (AvailableBookList 1) = KyResponse false doc ∧
       order_book doc = Some infos ∧
       mapM parseRow infos = Some rows ∧
       pageCountText doc = None) ∧
    (∀ e, result = Rejected e →
          books w' = [] ∧
          loading w' = true ∧
          loadingMessage w' = loadingMessage w ∧
          storage_books w' = storage_books w ∧
          requests w' = requests w ++ [AvailableBookList 1]).
Proof.
  destruct (remote (AvailableBookList 1)) as [|redirected doc] eqn:Hremote.
  - assert (H : resultOf (loadAvailableBookList remote 1) = Rejected HTTPError)
      by (run_M; by rewrite Hremote).
    rewrite (reloadCollection_rejected _ _ _ _ _ H). eexists _, _.
    split; [done |]. split; [done |]. split; [done |]. split; [| done].
    split; [done |]. by intros (? & ? & ? & ? & _).
  - assert (H : resultOf (loadAvailableBookList remote 1) =
                Fulfilled (listingOfResponse redirected doc))
      by (run_M; by rewrite Hremote).
    destruct (listing_error (listingOfResponse redirected doc)) as [error|] eqn:He.
    + rewrite (reloadCollection_error _ _ _ _ _ _ H He). eexists _, _.
      split; [done |]. split; [done |]. split; [done |]. split; [| done].
      split; [done |]. intros (d & infos & rows & [= -> <-] & Hob & Hrows & _).
      unfold listingOfResponse in He. rewrite Hob in He. simpl in He.
      by rewrite Hrows in He.
    + destruct (listingOfResponse_ok _ _ He) as [rows Hl].
      assert (redirected = false ∧ ∃ infos, order_book doc = Some infos ∧
                                            mapM parseRow infos = Some rows)
        as (-> & infos & Hob & Hrows).
      { unfold listingOfResponse in Hl. destruct redirected; [done |].
        destruct (order_book doc) as [infos|]; [| done]. simpl in Hl.
        destruct (mapM parseRow infos) eqn:E; [| done]. simplify_eq. eauto. }
      rewrite Hl in H. destruct (pageCountText doc) as [text|] eqn:Ht.
      * destruct (reloadCollection_world remote σpages σseries w)
          as (r & w' & Hrc & _ & _ & _ & _ & _ & _ & Hlast).
        assert (Hpc : pageCountOf remote = Some (Js.parseInt text))
          by (unfold pageCountOf; rewrite H; simpl; by rewrite Ht).
        rewrite Hpc in Hlast. destruct Hlast as [-> _].
        exists (Fulfilled ()), w'. split; [done |]. split; [done |].
        split; [done |]. split; [| done].
        split; [done |]. intros (d & ? & ? & [= <-] & _ & _ & ?). congruence.
      * rewrite (reloadCollection_no_pagination _ _ _ _ _ doc H) by done.
        eexists _, _. split; [done |]. split; [done |]. split; [done |].
        split; [| done]. split; [| done]. intros _. by exists doc, infos, rows.
Qed.

(** X12. A run never touches the labels, in the state or in the store.
    Once page 1 is recorded, the stored record set is the record set of
    the state at the end of the run, whatever the outcome; before that,
    the store keeps what it had while the record set of the state is
    empty. *)
Theorem reloadCollection_store (remote : Url → KyAnswer)
    (σpages σseries : schedule) (w : World) :
  let w' := (reloadCollection remote σpages σseries w).2 in
  topSeries w' = topSeries w ∧
  storage_topSeries w' = storage_topSeries w ∧
  match pageCountOf remote with
  | Some _ => storage_books w' = Some (books w')
  | None => storage_books w' = storage_books w ∧ books w' = []
  end.
Proof.
  intros w'. subst w'.
  destruct (reloadCollection_world remote σpages σseries w)
    as (r & w' & Hrc & _ & Hbooks & _ & Ht & Hst & _ & Hlast).
  rewrite Hrc. simpl. split; [done |]. split; [done |].
  destruct (pageCountOf remote) eqn:Hpc; [by destruct Hlast |].
  split; [done |]. unfold listedBooks in Hbooks. rewrite Hpc in Hbooks.
  by apply Permutation_nil_r.
Qed.

(** X13. The record set a run leaves has one record per fetched row and
    no other: each record has the id and the name of its row; its
    favorite and bookmark flags are those of the previous entity with the
    same id, and false when there is none; a series the previous entity
    had is kept. *)
Theorem reloadCollection_keeps_user_flags (remote : Url → KyAnswer)
    (σpages σseries : schedule) (w : World) :
  let w' := (reloadCollection remote σpages σseries w).2 in
  length (books w') = length (listedBooks remote) ∧
  (∀ row, row ∈ listedBooks remote →
          ∃ b, b ∈ books w' ∧ id b = fetched_id row ∧ name b = fetched_name row) ∧
  (∀ b, b ∈ books w' →
        (∃ row, row ∈ listedBooks remote ∧
                id b = fetched_id row ∧ name b = fetched_name row) ∧
        (∀ old, previousOf (books w) (id b) old →
                favorite b = favorite old ∧
                bookmark b = bookmark old ∧
                (series old ≠ None → series b = series old)) ∧
        (unknownId (books w) (id b) → favorite b = false ∧ bookmark b = false)).
Proof.
  intros w'. subst w'.
  destruct (reloadCollection_world remote σpages σseries w)
    as (r & w' & Hrc & _ & Hbooks & _).
  rewrite Hrc. simpl. split; [| split].
  - by rewrite Hbooks, !length_fmap.
  - intros row Hrow. exists (finished remote (mergeBook (books w) row)).
    split; [rewrite Hbooks; by apply list_elem_of_fmap_2, list_elem_of_fmap_2 |].
    destruct (finished_fields remote (mergeBook (books w) row)) as (-> & -> & _).
    done.
  - intros b Hb. rewrite Hbooks in Hb.
    apply list_elem_of_fmap in Hb as (b0 & -> & Hb0).
    apply list_elem_of_fmap in Hb0 as (row & -> & Hrow).
    destruct (finished_fields remote (mergeBook (books w) row))
      as (-> & -> & -> & -> & Hseries).
    split; [by exists row |]. split.
    + intros old Hold. destruct (mergeBook_previous _ _ _ Hold) as (Hs & -> & ->).
      split; [done |]. split; [done |]. intros Hsome. rewrite <- Hs.
      apply Hseries. by rewrite Hs.
    + intros Hun. by destruct (mergeBook_unknown _ _ Hun) as (_ & -> & ->).
Qed.

(** X14. Beyond the listing pages a run requests product pages only, and
    only for records whose previous entity has no series: the series of a
    record that already has one is never fetched again. *)
Theorem reloadCollection_requests_missing_series_only (remote : Url → KyAnswer)
    (σpages σseries : schedule) (w : World) :
  let w' := (reloadCollection remote σpages σseries w).2 in
  ∃ products,
    requests w' ≡ₚ
      requests w ++ (AvailableBookList <$> pagesRequested remote) ++
      (Product <$> products) ∧
    ∀ i, i ∈ products →
         (∃ b, b ∈ books w' ∧ id b = i) ∧
         ∀ old, previousOf (books w) i old → series old = None.
Proof.
  intros w'. subst w'.
  destruct (reloadCollection_world remote σpages σseries w)
    as (r & w' & Hrc & _ & Hbooks & Hreq & _).
  rewrite Hrc. simpl.
  exists (if listingDone remote
          then id <$> filter (λ b, series b = None)
                        (mergeBook (books w) <$> listedBooks remote)
          else []).
  split.
  - rewrite Hreq. unfold pagesRequested.
    destruct (listingDone remote); [| done]. by rewrite <- list_fmap_compose.
  - intros i Hi. destruct (listingDone remote); [| by apply elem_of_nil in Hi].
    apply list_elem_of_fmap in Hi as (b & -> & Hb).
    apply list_elem_of_filter in Hb as [Hs Hb].
    apply list_elem_of_fmap in Hb as (row & -> & Hrow). split.
    + exists (finished remote (mergeBook (books w) row)). split.
      * rewrite Hbooks. by apply list_elem_of_fmap_2, list_elem_of_fmap_2.
      * by destruct (finished_fields remote (mergeBook (books w) row)) as (-> & _).
    + intros old Hold. destruct (mergeBook_previous (books w) row old Hold) as (Hso & _).
      by rewrite <- Hso.
Qed.

(** X15. The pages of the concurrent pass are the pages 2 .. pageCount,
    each once: none when the page count is NaN, 1, 0 or negative. *)
Theorem pagesNeedLoad_range (pageCount : Js.number) :
  NoDup (pagesNeedLoad pageCount) ∧
  ∀ page : Z, page ∈ pagesNeedLoad pageCount ↔
              ∃ n, pageCount = Js.Num n ∧ (2 ≤ page ≤ n)%Z.
Proof.
  unfold pagesNeedLoad. split.
  - apply NoDup_fmap_2; [| apply NoDup_seq]. intros a b. lia.
  - intros page. rewrite list_elem_of_fmap. split.
    + intros (k & -> & Hk). apply elem_of_seq in Hk.
      destruct pageCount as [|n]; simpl in Hk; [lia |]. exists n. split; [done | lia].
    + intros (n & -> & Hp). exists (Z.to_nat (page - 2)). split; [lia |].
      apply elem_of_seq. simpl. lia.
Qed.

Lemma strict_eq_true a b : Js.strict_eq a b = true → a = b.
Proof. destruct a, b; simpl; try done. by intros ->%Z.eqb_eq. Qed.

Lemma strict_eq_NaN_r a : Js.strict_eq a Js.NaN = false.
Proof. by destruct a. Qed.

Lemma Book_eq (a b : Book) :
  id a = id b → name a = name b → series a = series b →
  favorite a = favorite b → bookmark a = bookmark b → a = b.
Proof. destruct a, b. simpl. by intros -> -> -> -> ->. Qed.

Lemma mergeBook_same_id originBooks row row' :
  fetched_id row = fetched_id row' →
  series (mergeBook originBooks row) = series (mergeBook originBooks row') ∧
  favorite (mergeBook originBooks row) = favorite (mergeBook originBooks row') ∧
  bookmark (mergeBook originBooks row) = bookmark (mergeBook originBooks row').
Proof. unfold mergeBook. simpl. by intros ->. Qed.

Section Again.
Variable remote : Url → KyAnswer.

Lemma finished_series_congr a b :
  id a = id b → series a = series b →
  series (finished remote a) = series (finished remote b).
Proof.
  unfold finished. destruct (listingDone remote); [| done].
  intros Hi Hs. rewrite !enrich_eq, Hi.
  destruct (series a) eqn:Ha, (series b) eqn:Hb; try done; [congruence |].
  destruct (resultOf (loadSeries remote (id b))); simpl; congruence.
Qed.

Lemma finished_idem b : finished remote (finished remote b) = finished remote b.
Proof.
  unfold finished. destruct (listingDone remote); [| done].
  rewrite (enrich_eq remote (enrich remote b)), enrich_id.
  rewrite (enrich_eq remote b).
  destruct (series b) eqn:Hs; simpl; [by rewrite Hs |].
  destruct (resultOf (loadSeries remote (id b))) eqn:Hr; simpl; [done | |];
    by rewrite Hs.
Qed.

(** Merging a row against the record set that a run has left gives the
    record the run made of this row, up to the enrichment. *)
Lemma mergeBook_after_run originBooks (after : list Book) row :
  after ≡ₚ finished remote <$> (mergeBook originBooks <$> listedBooks remote) →
  row ∈ listedBooks remote →
  finished remote (mergeBook after row) =
  finished remote (mergeBook originBooks row).
Proof.
  intros Hafter Hrow.
  destruct (previousOf_or_unknown after (fetched_id row)) as [[old' Hold'] | Hun].
  - rewrite <- (finished_idem (mergeBook originBooks row)). f_equal.
    destruct (mergeBook_previous after row old' Hold') as (Hs & Hf & Hb).
    assert (Hin : old' ∈ after).
    { destruct Hold' as (l1 & l2 & -> & _). rewrite elem_of_app, elem_of_cons. auto. }
    rewrite Hafter in Hin. apply list_elem_of_fmap in Hin as (m' & -> & Hm').
    apply list_elem_of_fmap in Hm' as (row' & -> & Hrow').
    assert (Hid : fetched_id row' = fetched_id row).
    { destruct Hold' as (_ & _ & _ & Heq & _). apply strict_eq_true in Heq.
      destruct (finished_fields remote (mergeBook originBooks row')) as (Hi1 & _).
      rewrite Hi1 in Heq. exact Heq. }
    destruct (mergeBook_same_id originBooks row' row Hid) as (Hs' & Hf' & Hb').
    destruct (finished_fields remote (mergeBook originBooks row'))
      as (_ & _ & Hf1 & Hb1 & _).
    destruct (finished_fields remote (mergeBook originBooks row))
      as (Hi2 & Hn2 & Hf2 & Hb2 & _).
    apply Book_eq.
    + by rewrite Hi2.
    + by rewrite Hn2.
    + rewrite Hs. apply finished_series_congr; [exact Hid | done].
    + by rewrite Hf, Hf1, Hf2.
    + by rewrite Hb, Hb1, Hb2.
  - assert (HNaN : fetched_id row = Js.NaN).
    { assert (Hin : finished remote (mergeBook originBooks row) ∈ after)
        by (rewrite Hafter; by apply list_elem_of_fmap_2, list_elem_of_fmap_2).
      apply Hun in Hin.
      destruct (finished_fields remote (mergeBook originBooks row)) as (Hi & _).
      rewrite Hi in Hin. simpl in Hin.
      destruct (fetched_id row) as [|z]; [done |]. simpl in Hin.
      by rewrite Z.eqb_refl in Hin. }
    assert (Hun0 : unknownId originBooks (fetched_id row)).
    { intros b _. rewrite HNaN. apply strict_eq_NaN_r. }
    destruct (mergeBook_unknown after row Hun) as (Hs & Hf & Hb).
    destruct (mergeBook_unknown originBooks row Hun0) as (Hs0 & Hf0 & Hb0).
    f_equal. apply Book_eq; try done; congruence.
Qed.
End Again.

(** X16. Running the synchronization again against the same remote pages
    gives the same record set, whatever the completion orders and
    whatever the outcome of the runs: the second run reproduces every
    record of the first, flags and series included. *)
Theorem reloadCollection_again (remote : Url → KyAnswer)
    (σpages σseries σpages' σseries' : schedule) (w : World) :
  let w1 := (reloadCollection remote σpages σseries w).2 in
  let w2 := (reloadCollection remote σpages' σseries' w1).2 in
  books w2 ≡ₚ books w1.
Proof.
  intros w1 w2. subst w1 w2.
  destruct (reloadCollection_world remote σpages σseries w)
    as (r & w1 & Hrc & _ & Hbooks & _).
  rewrite Hrc. simpl.
  destruct (reloadCollection_world remote σpages' σseries' w1)
    as (r' & w2 & Hrc' & _ & Hbooks' & _).
  rewrite Hrc'. simpl.
  etrans; [exact Hbooks' |]. etrans; [| symmetry; exact Hbooks].
  rewrite <- !list_fmap_compose. apply Permutation_refl'.
  apply Forall_fmap_ext, Forall_forall. intros row Hrow. simpl.
  by apply mergeBook_after_run.
Qed.

(** X17. A favorite flag set by [switchFavorite] survives the next run:
    every record of the new record set with this id carries the negated
    favorite flag, and the bookmark flag, of the book that was toggled. *)
Theorem switchFavorite_survives_reloadCollection (remote : Url → KyAnswer)
    (σpages σseries : schedule) (w : World) (bookId : Js.number) (old : Book) :
  previousOf (books w) bookId old →
  let w1 := (switchFavorite bookId w).2 in
  let w2 := (reloadCollection remote σpages σseries w1).2 in
  ∀ b, b ∈ books w2 →
       Js.strict_eq (id b) bookId = true →
       favorite b = negb (favorite old) ∧ bookmark b = bookmark old.
Proof.
  intros Hold w1 w2 b Hb Hid. subst w1 w2.
  assert (Hold1 : previousOf (books (switchFavorite bookId w).2) bookId
                    (flipFavorite old)).
  { destruct Hold as (before & after & E & Hmatch & Hbefore).
    rewrite switchFavorite_run. simpl.
    rewrite (proj2 (toggleFirst_Some flipFavorite bookId (books w)
                      (before ++ flipFavorite old :: after)))
      by (by exists before, old, after).
    simpl. by exists before, after. }
  destruct (reloadCollection_world remote σpages σseries (switchFavorite bookId w).2)
    as (r & w2 & Hrc & _ & Hbooks & _).
  rewrite Hrc in Hb. simpl in Hb. rewrite Hbooks in Hb.
  apply list_elem_of_fmap in Hb as (b0 & -> & Hb0).
  apply list_elem_of_fmap in Hb0 as (row & -> & Hrow).
  destruct (finished_fields remote
              (mergeBook (books (switchFavorite bookId w).2) row))
    as (Hi & _ & -> & -> & _).
  rewrite Hi in Hid. simpl in Hid. apply strict_eq_true in Hid. subst bookId.
  by destruct (mergeBook_previous _ row _ Hold1) as (_ & -> & ->).
Qed.

Lemma switchFavorite_survives_reloadCollection_witness :
  favorite (withSeries "Saga (" (flipFavorite Case.listedA)) =
    negb (favorite Case.known) ∧
  bookmark (withSeries "Saga (" (flipFavorite Case.listedA)) =
    bookmark Case.known.
Proof.
  apply (switchFavorite_survives_reloadCollection Sample.twoPages Sample.inOrder
           Sample.inOrder Sample.previous (Js.Num 10) Case.known).
  - by exists [], [].
  - vm_compute. left.
  - reflexivity.
Defined.

(** ** The steps of the run *)

(** X18. Recording two lists of rows one after the other is recording
    their concatenation; recording no row leaves the record set as it is,
    and stores it. *)
Theorem recordBookList_app (originBooks : list Book) (rows rows' : list FetchedBook)
    (w : World) :
  (recordBookList originBooks rows' (recordBookList originBooks rows w).2).2 =
    (recordBookList originBooks (rows ++ rows') w).2 ∧
  books (recordBookList originBooks [] w).2 = books w ∧
  storage_books (recordBookList originBooks [] w).2 = Some (books w).
Proof.
  unfold recordBookList, saveBooks, mbind, M_bind, update. simpl.
  rewrite fmap_app, !app_assoc, !app_nil_r. split; [| done].
  unfold set_storage_books, set_books. simpl. f_equal.
  by rewrite app_assoc.
Qed.

(** X19. The operation on a page of the concurrent pass makes one
    request. When the page is fetched without error it appends the merge
    of its rows and stores the record set, and resolves to null. When the
    page fails it changes nothing else, and it resolves to the error of
    the page or rejects with the error of [ky.get]: it never raises a
    TypeError. *)
Theorem loadPage_outcome (remote : Url → KyAnswer) (originBooks : list Book)
    (page : Z) (w : World) :
  ∃ result w',
    loadPage remote originBooks page w = (result, w') ∧
    ((result = Fulfilled None ∧
      pageFails remote page = false ∧
      w' = set_storage_books
             (books w ++ (mergeBook originBooks <$> fetchedRows remote page))
             (set_books
                (λ bs, bs ++ (mergeBook originBooks <$> fetchedRows remote page))
                (log_request (AvailableBookList page) w))) ∨
     (isFailure result = true ∧
      pageFails remote page = true ∧
      result ≠ Rejected TypeError ∧
      result ≠ Pending ∧
      w' = log_request (AvailableBookList page) w)).
Proof.
  unfold pageFails, fetchedRows, loadPage, loadAvailableBookList, recordBookList,
    saveBooks, ky_get, resultOf, deref, throw, update, mbind, M_bind, mret, M_ret.
  simpl.
  destruct (remote (AvailableBookList page)) as [|redirected doc]; simpl.
  { eexists _, _. split; [done |]. right. by repeat split. }
  unfold listingOfResponse. destruct redirected; simpl.
  { eexists _, _. split; [done |]. right. by repeat split. }
  destruct (order_book doc ≫= mapM parseRow) as [rows|]; simpl.
  - eexists _, _. split; [done |]. left. by repeat split.
  - eexists _, _. split; [done |]. right. by repeat split.
Qed.

Lemma alter_as_insert {A} (f : A → A) (l : list A) (i : nat) (x : A) :
  l !! i = Some x → alter f i l = <[i := f x]> l.
Proof.
  intros Hx. apply list_eq. intros j. destruct (decide (i = j)) as [<- | Hne].
  - rewrite list_lookup_alter_eq, Hx, list_lookup_insert_eq; [done |].
    eauto using lookup_lt_Some.
  - by rewrite list_lookup_alter_ne, list_lookup_insert_ne.
Qed.

(** X20. The operation of the enrichment pass makes one request, for the
    id of its record. When [loadSeries] is fulfilled it assigns the
    series of this record and of no other, keeps every other field and
    the order, and stores the record set; when [loadSeries] rejects it
    changes nothing else and rejects with the same error. *)
Theorem loadBookSeries_outcome (remote : Url → KyAnswer) (position : nat)
    (w : World) (b : Book) :
  books w !! position = Some b →
  ∃ w',
    loadBookSeries remote position w = (seriesOutcome remote b, w') ∧
    match resultOf (loadSeries remote (id b)) with
    | Fulfilled loaded =>
        books w' = <[position := withSeries loaded b]> (books w) ∧
        storage_books w' = Some (books w') ∧
        requests w' = requests w ++ [Product (id b)] ∧
        topSeries w' = topSeries w ∧
        loading w' = loading w ∧
        loadingMessage w' = loadingMessage w
    | Rejected e =>
        seriesOutcome remote b = Rejected e ∧
        w' = log_request (Product (id b)) w
    | Pending => False
    end.
Proof.
  intros Hb. rewrite seriesOutcome_eq. unfold loadBookSeries. rewrite Hb.
  run_M. destruct (remote (Product (id b))) as [|redirected doc]; simpl.
  { by eexists. }
  destruct (seriesOfDocument doc) as [loaded|]; simpl; [| by eexists].
  eexists. split; [done |]. simpl.
  by rewrite (alter_as_insert _ _ _ _ Hb).
Qed.

Lemma loadBookSeries_outcome_witness :
  ∃ w',
    loadBookSeries Sample.twoPages 0 Case.afterListing
      = (seriesOutcome Sample.twoPages Case.listedA, w') ∧
    match resultOf (loadSeries Sample.twoPages (id Case.listedA)) with
    | Fulfilled loaded =>
        books w' =
          <[0%nat := withSeries loaded Case.listedA]> (books Case.afterListing) ∧
        storage_books w' = Some (books w') ∧
        requests w' = requests Case.afterListing ++ [Product (id Case.listedA)] ∧
        topSeries w' = topSeries Case.afterListing ∧
        loading w' = loading Case.afterListing ∧
        loadingMessage w' = loadingMessage Case.afterListing
    | Rejected e =>
        seriesOutcome Sample.twoPages Case.listedA = Rejected e ∧
        w' = log_request (Product (id Case.listedA)) Case.afterListing
    | Pending => False
    end.
Proof.
  apply (loadBookSeries_outcome Sample.twoPages 0 Case.afterListing Case.listedA).
  reflexivity.
Defined.

Section Flag.
Variable remote : Url → KyAnswer.
Variables σpages σseries : schedule.

Lemma reloadCollection_stopped_message w :
  pageCountOf remote = None →
  ∃ r w',
    reloadCollection remote σpages σseries w = (r, w') ∧
    loading w' = true ∧
    (r = Fulfilled () →
     ∃ m, loadingMessage w' = Some m ∧ error m = Some true).
Proof.
  intros Hpc. unfold pageCountOf in Hpc.
  destruct (resultOf (loadAvailableBookList remote 1)) as [l|e|] eqn:H.
  - destruct (listing_error l) as [error|] eqn:He.
    + rewrite (reloadCollection_error _ _ _ _ _ _ H He). eexists _, _.
      split; [done |]. split; [done |]. intros _. eexists. split; [done |].
      by destruct error.
    + destruct (resultOf_listing _ _ _ H) as (r & d & ->).
      destruct (listingOfResponse_ok _ _ He) as [rows Hl]. rewrite Hl in *.
      simpl in Hpc. destruct (pageCountText d) eqn:Ht; [done |].
      rewrite (reloadCollection_no_pagination _ _ _ _ _ d H) by done.
      by eexists _, _.
  - rewrite (reloadCollection_rejected _ _ _ _ _ H). by eexists _, _.
  - exfalso. revert H. run_M. by destruct (remote (AvailableBookList 1)).
Qed.
End Flag.

(** X21. The loading flag is cleared at the end of a run exactly when
    page 1 gave a page count and no later page failed, and then the
    message is cleared too. After every other run the flag stays set,
    and a run that returned has left a message with its error flag. *)
Theorem reloadCollection_loading_flag (remote : Url → KyAnswer)
    (σpages σseries : schedule) (w : World) :
  ∃ result w',
    reloadCollection remote σpages σseries w = (result, w') ∧
    loading w' = negb (listingDone remote) ∧
    (listingDone remote = true →
     result = Fulfilled () ∧ loadingMessage w' = None) ∧
    (listingDone remote = false →
     result = Fulfilled () →
     ∃ m, loadingMessage w' = Some m ∧ error m = Some true).
Proof.
  destruct (pageCountOf remote) as [pageCount|] eqn:Hpc.
  - destruct (reloadCollection_listed remote σpages σseries w pageCount Hpc)
      as (w2 & _ & _ & Hl & _ & _ & _ & Hfail & Hok).
    destruct (listingDone remote) eqn:Hdone.
    + apply listingDone_true in Hdone as (pc & Hpc' & Hall).
      rewrite Hpc in Hpc'. injection Hpc' as <-.
      destruct (Hok Hall) as (rs & w3 & message & _ & _ & _ & _ & _ & Hrc).
      rewrite Hrc. eexists _, _. split; [done |]. by repeat split.
    + destruct (listingDone_false_failing remote pageCount Hpc Hdone)
        as (page & Hin & Hf).
      rewrite Hfail by eauto. eexists _, _. split; [done |]. simpl.
      split; [done |]. split; [done |]. intros _ _. by eexists.
  - destruct (reloadCollection_stopped_message remote σpages σseries w Hpc)
      as (r & w' & Hrc & Hl & Hm).
    exists r, w'. split; [done |].
    assert (listingDone remote = false) as -> by (unfold listingDone; by rewrite Hpc).
    split; [done |]. split; [done |]. intros _. exact Hm.
Qed.
